(** * Retry policy of [lib/prisma.ts]

    A shallow embedding of the two revisions of [lib/prisma.ts] (the
    "enhanced" multi-attempt retry and the earlier "one-shot" retry) and
    machine-checked statements about the failure classifier [isRetryable],
    the delay computation [jitter] and the retrying query extension
    [$allOperations]. *)

From Stdlib Require Import List ZArith NArith Lia Bool String Ascii.
From Stdlib Require Import Floats.SpecFloat.
Import ListNotations.

Set Implicit Arguments.

(** ** JavaScript strings

    A JavaScript string is a sequence of UTF-16 code units.  String
    literals of the source are written [js "..."]. *)

Definition code_unit := N.
Definition jsstring := list code_unit.

Definition js (s : string) : jsstring :=
  map N_of_ascii (list_ascii_of_string s).

Fixpoint jsstring_eqb (a b : jsstring) : bool :=
  match a, b with
  | [], [] => true
  | x :: a', y :: b' => (x =? y)%N && jsstring_eqb a' b'
  | _, _ => false
  end.

(** [Array.prototype.includes] on an array of strings. *)
Fixpoint includes (xs : list jsstring) (x : jsstring) : bool :=
  match xs with
  | [] => false
  | y :: xs' => jsstring_eqb y x || includes xs' x
  end.

(** [String.prototype.slice(0, n)]. *)
Definition slice0 (n : nat) (s : jsstring) : jsstring := firstn n s.

(** ** Regular expressions with the [i] flag

    Every entry of [RETRYABLE_MESSAGE_PATTERNS] is a disjunction of literal
    character sequences, without the [g] or [y] flag, so [test] keeps no
    state between calls. *)

Inductive regex : Type :=
| Literal (cs : jsstring)
| Alternation (l r : regex).

(** Case folding of a non-unicode, ignore-case regular expression.  ASCII
    letters are folded to upper case.  A code unit of 128 or more is never
    folded into the ASCII range, so against the ASCII patterns of this file
    it compares like itself. *)
Definition canonicalize (ch : code_unit) : code_unit :=
  if ((97 <=? ch) && (ch <=? 122))%N then (ch - 32)%N else ch.

Fixpoint match_chars (pat s : jsstring) : bool :=
  match pat, s with
  | [], _ => true
  | _ :: _, [] => false
  | p :: pat', c :: s' =>
      (canonicalize p =? canonicalize c)%N && match_chars pat' s'
  end.

Fixpoint match_at (r : regex) (s : jsstring) : bool :=
  match r with
  | Literal cs => match_chars cs s
  | Alternation a b => match_at a s || match_at b s
  end.

(** [RegExp.prototype.test]: a match starting at some index of [s]. *)
Fixpoint test (r : regex) (s : jsstring) : bool :=
  match_at r s ||
  match s with
  | [] => false
  | _ :: s' => test r s'
  end.

(** [Array.prototype.some]. *)
Definition some {A : Type} (p : A -> bool) (xs : list A) : bool := existsb p xs.

(** ** Values and thrown errors *)

Definition number := spec_float.

(** Property values.  [VObject] stands for an object that has no callable
    [slice] property. *)
Inductive jsval : Type :=
| VUndefined
| VNull
| VBoolean (b : bool)
| VNumber (x : number)
| VString (s : jsstring)
| VObject.

(** [v ?? d] on values, and on a property that is a string when present. *)
Definition coalesce (v d : jsval) : jsval :=
  match v with
  | VUndefined | VNull => d
  | _ => v
  end.

Definition or_else {A : Type} (o : option A) (d : A) : A :=
  match o with
  | Some a => a
  | None => d
  end.

(** What a [catch] clause can receive.  The three Prisma classes are
    distinct subclasses of [Error]; [instanceof] is the constructor test.
    A [message] or [errorCode] that is [None] is nullish at run time. *)
Inductive thrown : Type :=
| PrismaClientInitializationError (errorCode : option jsstring)
                                  (message : option jsstring)
| PrismaClientKnownRequestError (code : jsstring) (message : option jsstring)
| PrismaClientUnknownRequestError (message : option jsstring)
| ThrownNullish
| ThrownOther (message : jsval).

(** [e?.message] for a value that is none of the three classes. *)
Definition optional_message (e : thrown) : jsval :=
  match e with
  | PrismaClientInitializationError _ m
  | PrismaClientKnownRequestError _ m
  | PrismaClientUnknownRequestError m =>
      match m with Some s => VString s | None => VUndefined end
  | ThrownNullish => VUndefined
  | ThrownOther m => m
  end.

(** ** Numbers

    A JavaScript number is an IEEE 754 binary64 value.  Integer literals
    are written [num z]. *)

Definition num (z : Z) : number := binary_normalize 53 1024 z 0 false.

Definition mul (x y : number) : number := SFmul 53 1024 x y.
Definition add (x y : number) : number := SFadd 53 1024 x y.
Definition div (x y : number) : number := SFdiv 53 1024 x y.

(** [Math.floor].  A finite number with a non-negative exponent is an
    integer already; otherwise the mantissa is shifted right, which rounds
    towards minus infinity. *)
Definition Math_floor (x : number) : number :=
  match x with
  | S754_finite s m e =>
      if (0 <=? e)%Z then x
      else binary_normalize 53 1024
             (Z.shiftr (cond_Zopp s (Zpos m)) (- e)) 0 s
  | _ => x
  end.

(** What [Math.random] may return: a binary64 value in [0, 1). *)
Definition unit_interval (r : number) : Prop :=
  valid_binary 53 1024 r = true /\
  SFleb (num 0) r = true /\
  SFltb r (num 1) = true.

(** ** The run-time environment of an extension

    [query(args)] and [Math.random()] are external: an environment fixes
    what the n-th call of each returns.  The extension's own effects are
    recorded in a state: how often it called [query], how many random
    numbers it drew, and the warnings and timeouts it issued, in order. *)

Record warning : Type := {
  w_model : jsstring;
  w_operation : jsstring;
  w_errorId : jsstring;
  w_attempt : nat;
  w_total : nat;
  w_seconds : number;
  w_detail : jsstring
}.

Inductive event : Type :=
| Warn (w : warning)
| Timeout (ms : number).

Record state : Type := {
  invocations : nat;
  draws : nat;
  events : list event
}.

Definition initial : state :=
  {| invocations := 0; draws := 0; events := [] |}.

Definition count_warnings (evs : list event) : nat :=
  List.length (filter (fun ev => match ev with Warn _ => true | _ => false end) evs).

Definition count_timeouts (evs : list event) : nat :=
  List.length (filter (fun ev => match ev with Timeout _ => true | _ => false end) evs).

Section Runtime.

Variable R : Type.

Inductive outcome : Type :=
| Resolved (r : R)
| Rejected (e : thrown).

Record environment : Type := {
  query : nat -> outcome;
  Math_random : nat -> number
}.

Definition M (X : Type) : Type := environment -> state -> X * state.

Definition ret {X : Type} (x : X) : M X := fun _ s => (x, s).

Definition bind {X Y : Type} (c : M X) (k : X -> M Y) : M Y :=
  fun env s => let (x, s') := c env s in k x env s'.

(** [await query(args)] *)
Definition await_query : M outcome :=
  fun env s =>
    (query env (invocations s),
     {| invocations := S (invocations s);
        draws := draws s;
        events := events s |}).

(** [Math.random()] *)
Definition random : M number :=
  fun env s =>
    (Math_random env (draws s),
     {| invocations := invocations s;
        draws := S (draws s);
        events := events s |}).

Definition emit (ev : event) : M unit :=
  fun _ s =>
    (tt,
     {| invocations := invocations s;
        draws := draws s;
        events := events s ++ [ev] |}).

(** [console.warn(...)] *)
Definition console_warn (w : warning) : M unit := emit (Warn w).

(** [await new Promise(resolve => setTimeout(resolve, ms))] *)
Definition await_timeout (ms : number) : M unit := emit (Timeout ms).

(** How an invocation of [$allOperations] ends, with the statement that
    ended it. *)
Inductive exit : Type :=
| ReturnResult (r : R)
| ThrowNotRetryable (err : thrown)
| ThrowExhausted (err : thrown)
| ThrowTypeError
| ThrowAfterLoop (lastError : thrown).

(** What the caller of the extension observes. *)
Inductive settled : Type :=
| Fulfilled (r : R)
| RejectedWith (e : thrown)
| RejectedWithTypeError.

Definition settle (x : exit) : settled :=
  match x with
  | ReturnResult r => Fulfilled r
  | ThrowNotRetryable err => RejectedWith err
  | ThrowExhausted err => RejectedWith err
  | ThrowTypeError => RejectedWithTypeError
  | ThrowAfterLoop lastError => RejectedWith lastError
  end.

End Runtime.

Arguments ret {R X} x.
Arguments bind {R X Y} c k.
Arguments await_query {R}.
Arguments random {R}.
Arguments console_warn {R} w.
Arguments await_timeout {R} ms.
Arguments ThrowTypeError {R}.
Arguments ThrowNotRetryable {R} err.
Arguments ThrowExhausted {R} err.
Arguments ThrowAfterLoop {R} lastError.
Arguments Rejected {R} e.
Arguments RejectedWith {R} e.
Arguments RejectedWithTypeError {R}.

Declare Scope js_scope.
Delimit Scope js_scope with js.
Notation "x <- c ;; k" := (bind c (fun x => k))
  (at level 61, c at next level, right associativity) : js_scope.
Notation "c ;; k" := (bind c (fun _ => k))
  (at level 61, right associativity) : js_scope.

(** ** Configuration shared by both revisions *)

Definition RETRYABLE_CODES : list jsstring :=
  [ js "P1001"; js "P1002"; js "P1008"; js "P1017"; js "P2024" ].

(** ** The enhanced revision *)

Module Enhanced.

Definition RETRY_DELAYS_MS : list Z := [1000; 2000; 3000]%Z.

Definition RETRYABLE_MESSAGE_PATTERNS : list regex :=
  [ Literal (js "Can't reach database server");
    Literal (js "ECONNREFUSED");
    Literal (js "ETIMEDOUT");
    Literal (js "ECONNRESET");
    Alternation (Literal (js "EAI_AGAIN")) (Literal (js "ENOTFOUND"));
    Literal (js "server closed the connection");
    Literal (js "Connection terminated");
    Literal (js "connection terminated unexpectedly") ].

Definition isRetryable (e : thrown) : bool :=
  match e with
  | PrismaClientInitializationError _ _ => true
  | PrismaClientKnownRequestError code _ => includes RETRYABLE_CODES code
  | PrismaClientUnknownRequestError message =>
      let msg := or_else message (js "") in
      some (fun pattern => test pattern msg) RETRYABLE_MESSAGE_PATTERNS
  | _ =>
      let errorMessage := coalesce (optional_message e) (VString (js "")) in
      match errorMessage with
      | VString s (* typeof errorMessage === 'string' *) =>
          some (fun pattern => test pattern s) RETRYABLE_MESSAGE_PATTERNS
      | _ => false
      end
  end.

Definition getErrorIdentifier (e : thrown) : jsstring :=
  match e with
  | PrismaClientKnownRequestError code _ => code
  | PrismaClientUnknownRequestError _ => js "PRISMA_UNKNOWN_REQUEST_ERROR"
  | PrismaClientInitializationError errorCode _ =>
      or_else errorCode (js "PRISMA_CLIENT_INITIALIZATION_ERROR")
  | _ => js "UNKNOWN_ERROR_PRISMA"
  end.

(** [jitter]: [ms + Math.floor(Math.random() * 250)], first as a function of
    the random number drawn, then drawing it. *)
Definition jitter_with (r : number) (ms : number) : number :=
  add ms (Math_floor (mul r (num 250))).

Definition jitter {R : Type} (ms : number) : M R number :=
  (r <- random ;; ret (jitter_with r ms))%js.

(** [RETRY_DELAYS_MS[attempt]], as used in arithmetic: reading past the
    end gives [undefined], which every use converts to [NaN]. *)
Definition delay_at (attempt : nat) : number :=
  match nth_error RETRY_DELAYS_MS attempt with
  | Some d => num d
  | None => S754_nan
  end.

(** The one-character string ['…'] (U+2026). *)
Definition ELLIPSIS : jsstring := [8230%N].

(** [(err as Error).message?.slice(0, 100) + '…'].  [None] when evaluating
    it throws a [TypeError]: [err] is nullish, or [message] has no
    [slice]. *)
Definition truncated_message (err : thrown) : option jsstring :=
  match err with
  | ThrownNullish => None
  | _ =>
      match optional_message err with
      | VUndefined | VNull => Some (js "undefined" ++ ELLIPSIS)
      | VString s => Some (slice0 100 s ++ ELLIPSIS)
      | _ => None
      end
  end.

Section Scheduler.

Variable R : Type.
Variables model operation : jsstring.

(** The [for] loop of [$allOperations].  [attempt] runs from 0 while
    [attempt <= RETRY_DELAYS_MS.length]; [remaining] is the number of
    values of [attempt] the loop condition still admits, so the loop is
    left normally exactly when [remaining] is 0. *)
Fixpoint for_loop (remaining attempt : nat) (lastError : thrown)
  : M R (exit R) :=
  match remaining with
  | 0 => ret (ThrowAfterLoop lastError)
  | S remaining' =>
      (o <- await_query ;;
       match o with
       | Resolved r => ret (ReturnResult r)
       | Rejected err =>
           let lastError := err in
           if negb (isRetryable err) then ret (ThrowNotRetryable err)
           else if List.length RETRY_DELAYS_MS <=? attempt
           then ret (ThrowExhausted err)
           else
             let delayMs := delay_at attempt in
             let errorId := getErrorIdentifier err in
             match truncated_message err with
             | None => ret ThrowTypeError
             | Some detail =>
                 console_warn
                   {| w_model := model;
                      w_operation := operation;
                      w_errorId := errorId;
                      w_attempt := attempt + 1;
                      w_total := List.length RETRY_DELAYS_MS + 1;
                      w_seconds := div delayMs (num 1000);
                      w_detail := detail |} ;;
                 ms <- jitter delayMs ;;
                 await_timeout ms ;;
                 for_loop remaining' (attempt + 1) lastError
             end
       end)%js
  end.

(** [let lastError: unknown] starts out [undefined]. *)
Definition allOperations : M R (exit R) :=
  for_loop (List.length RETRY_DELAYS_MS + 1 - 0) 0 ThrownNullish.

End Scheduler.

End Enhanced.

(** ** The one-shot revision: classifier

    [RETRYABLE_CODES] is declared again there with the same five codes. *)

Module OneShot.

Definition RETRY_DELAY_MS : Z := 1000%Z.

Definition isRetryable (e : thrown) : bool :=
  match e with
  | PrismaClientKnownRequestError code _ => includes RETRYABLE_CODES code
  | PrismaClientInitializationError errorCode _ =>
      includes RETRYABLE_CODES (or_else errorCode (js ""))
  | _ => false
  end.

(** *** The one-shot extension

    Its effects are recorded like those of the enhanced extension, with the
    warning this revision prints:
    [`${operation} hit ${err.code ?? 'no error code, assuming: P1001'} –
    retrying once in ${RETRY_DELAY_MS / 1_000}s`]. *)

Record warning : Type := {
  w_operation : jsstring;
  w_code : jsstring;
  w_seconds : number
}.

Inductive event : Type :=
| Warn (w : warning)
| Timeout (ms : number).

Record state : Type := {
  invocations : nat;
  events : list event
}.

Definition initial : state := {| invocations := 0; events := [] |}.

(** [err.code].  Of the errors modelled only a known-request error has the
    property; an initialization error has [errorCode] instead. *)
Definition code_property (err : thrown) : option jsstring :=
  match err with
  | PrismaClientKnownRequestError code _ => Some code
  | _ => None
  end.

Section Extension.

Variable R : Type.
Variable operation : jsstring.
Variable env : environment R.

(** [await query(args)] *)
Definition await_query (s : state) : outcome R * state :=
  (query env (invocations s),
   {| invocations := S (invocations s); events := events s |}).

Definition emit (ev : event) (s : state) : state :=
  {| invocations := invocations s; events := events s ++ [ev] |}.

Definition allOperations (s : state) : settled R * state :=
  let (first, s1) := await_query s in
  match first with
  | Resolved r => (Fulfilled r, s1)
  | Rejected err =>
      if negb (isRetryable err) then (RejectedWith err, s1)
      else
        let s2 :=
          emit (Warn {| w_operation := operation;
                        w_code :=
                          or_else (code_property err)
                                  (js "no error code, assuming: P1001");
                        w_seconds := div (num RETRY_DELAY_MS) (num 1000) |})
               s1 in
        let s3 := emit (Timeout (num RETRY_DELAY_MS)) s2 in
        let (second, s4) := await_query s3 in
        match second with
        | Resolved r => (Fulfilled r, s4)
        | Rejected err' => (RejectedWith err', s4)
        end
  end.

End Extension.

End OneShot.

(** ** Module evaluation: the client singleton

    Both revisions end by choosing the client they export and, outside
    production, storing it on [globalThis].  A client is recorded by how it
    was built: which [new PrismaClient()] it started from and which
    extensions were applied to it with [$extends], innermost first in the
    term.  A realm holds what survives a re-evaluation of the module. *)

Inductive client : Type :=
| NewPrismaClient (serial : nat)
| Extends (base : client) (name : jsstring).

Record realm : Type := {
  globalThis_prisma : option client;
  NODE_ENV : option jsstring;
  constructed : nat
}.

(** The names the two revisions give their extensions:
    ['enhanced-connection-retry'] and ['one-shot-connection-retry']. *)
Definition ENHANCED : jsstring := js "enhanced-connection-retry".
Definition ONE_SHOT : jsstring := js "one-shot-connection-retry".

(** [new PrismaClient()] *)
Definition new_PrismaClient (g : realm) : client * realm :=
  (NewPrismaClient (constructed g),
   {| globalThis_prisma := globalThis_prisma g;
      NODE_ENV := NODE_ENV g;
      constructed := S (constructed g) |}).

(** [process.env.NODE_ENV !== 'production'] *)
Definition not_production (g : realm) : bool :=
  match NODE_ENV g with
  | Some v => negb (jsstring_eqb v (js "production"))
  | None => true
  end.

(** [if (process.env.NODE_ENV !== 'production') globalForPrisma.prisma = prisma] *)
Definition save_outside_production (prisma : client) (g : realm) : realm :=
  if not_production g
  then {| globalThis_prisma := Some prisma;
          NODE_ENV := NODE_ENV g;
          constructed := constructed g |}
  else g.

(** The enhanced revision:
    [globalForPrisma.prisma ?? new PrismaClient().$extends(...)]. *)
Definition enhanced_module (g : realm) : client * realm :=
  let (prisma, g1) :=
    match globalThis_prisma g with
    | Some cached => (cached, g)
    | None =>
        let (fresh, g') := new_PrismaClient g in
        (Extends fresh ENHANCED, g')
    end in
  (prisma, save_outside_production prisma g1).

(** The one-shot revision:
    [base = globalForPrisma.prisma ?? new PrismaClient()], then
    [base.$extends(...)]. *)
Definition one_shot_module (g : realm) : client * realm :=
  let (base, g1) :=
    match globalThis_prisma g with
    | Some cached => (cached, g)
    | None => new_PrismaClient g
    end in
  let prisma := Extends base ONE_SHOT in
  (prisma, save_outside_production prisma g1).

(** Evaluating a module [n] more times, as a hot reload does; the client
    exported by the last evaluation, if any, and the realm left behind. *)
Fixpoint reload (module : realm -> client * realm) (n : nat)
    (last : option client) (g : realm) : option client * realm :=
  match n with
  | 0 => (last, g)
  | S n' => let (prisma, g') := module g in reload module n' (Some prisma) g'
  end.

(** [c.$extends(...)] applied [n] times with the extension [name]. *)
Fixpoint extended (n : nat) (name : jsstring) (c : client) : client :=
  match n with
  | 0 => c
  | S n' => Extends (extended n' name c) name
  end.

(** How many extensions named [name] wrap a client. *)
Fixpoint layers (name : jsstring) (c : client) : nat :=
  match c with
  | NewPrismaClient _ => 0
  | Extends base name' =>
      (if jsstring_eqb name' name then 1 else 0) + layers name base
  end.

(** ** Vocabulary of the statements *)

(** Two code units that differ at most by the case of an ASCII letter. *)
Definition same_ignoring_case (a b : code_unit) : Prop :=
  a = b \/
  ((65 <= a <= 90)%N /\ b = (a + 32)%N) \/
  ((65 <= b <= 90)%N /\ a = (b + 32)%N).

(** [t] occurs in [s] as a substring, up to the case of ASCII letters. *)
Definition occurs_ignoring_case (t s : jsstring) : Prop :=
  exists pre mid post,
    s = pre ++ mid ++ post /\ Forall2 same_ignoring_case t mid.

(** The texts a pattern stands for. *)
Fixpoint alternatives (r : regex) : list jsstring :=
  match r with
  | Literal cs => [cs]
  | Alternation a b => alternatives a ++ alternatives b
  end.

Definition matches_ignoring_case (r : regex) (s : jsstring) : Prop :=
  exists t, In t (alternatives r) /\ occurs_ignoring_case t s.

(** The message of an error, when it has one that is text. *)
Definition message_text (e : thrown) : option jsstring :=
  match optional_message e with
  | VString s => Some s
  | _ => None
  end.

(** Errors without an actionable structured tag: an unknown-request error,
    or a value of none of the three Prisma classes. *)
Definition untagged (e : thrown) : Prop :=
  match e with
  | PrismaClientInitializationError _ _ => False
  | PrismaClientKnownRequestError _ _ => False
  | _ => True
  end.

(** What a caller observes who calls the operation directly. *)
Definition settle_outcome {R : Type} (o : outcome R) : settled R :=
  match o with
  | Resolved r => Fulfilled r
  | Rejected e => RejectedWith e
  end.

(** A call that failed with an error the enhanced classifier retries. *)
Definition retryable_failure {R : Type} (o : outcome R) : bool :=
  match o with
  | Resolved _ => false
  | Rejected e => Enhanced.isRetryable e
  end.

(** The shape of the events of one run of the enhanced extension, from the
    retry numbered [i] on: a warning about the failed call [i], numbered
    [i + 1] of 4 and announcing [i + 1] seconds, then the timeout computed
    from the random number [i] and the base delay of [1000 * (i + 1)] ms. *)
Fixpoint retry_trace {R : Type} (model operation : jsstring)
    (env : environment R) (i : nat) (evs : list event) : Prop :=
  match evs with
  | [] => True
  | Warn w :: Timeout ms :: rest =>
      (exists err,
          query env i = Rejected err /\
          w_errorId w = Enhanced.getErrorIdentifier err /\
          Enhanced.truncated_message err = Some (w_detail w)) /\
      w_model w = model /\
      w_operation w = operation /\
      i < List.length Enhanced.RETRY_DELAYS_MS /\
      w_attempt w = i + 1 /\
      w_total w = 4 /\
      w_seconds w = num (Z.of_nat (i + 1)) /\
      ms = Enhanced.jitter_with (Math_random env i)
                                (num (1000 * Z.of_nat (i + 1))) /\
      retry_trace model operation env (i + 1) rest
  | _ => False
  end.

(** The durations of the timeouts of a run, in order. *)
Fixpoint timeouts (evs : list event) : list number :=
  match evs with
  | [] => []
  | Timeout ms :: rest => ms :: timeouts rest
  | Warn _ :: rest => timeouts rest
  end.

(** The [i]-th wait, counted from 0, lasts at least [1000 * (i + 1)] ms and
    less than 250 ms more. *)
Fixpoint within_windows (i : nat) (ks : list Z) : Prop :=
  match ks with
  | [] => True
  | k :: ks' =>
      (1000 * Z.of_nat (i + 1) <= k < 1000 * Z.of_nat (i + 1) + 250)%Z /\
      within_windows (i + 1) ks'
  end.

(** The exits from inside the loop body: the [return] in the [try] block
    and the two [throw err] of the [catch] block. *)
Definition left_from_inside {R : Type} (x : exit R) : Prop :=
  match x with
  | ReturnResult _ | ThrowNotRetryable _ | ThrowExhausted _ => True
  | ThrowTypeError | ThrowAfterLoop _ => False
  end.

(** The state after [query] has been called once more. *)
Definition after_query (s : state) : state :=
  {| invocations := S (invocations s);
     draws := draws s;
     events := events s |}.

(** The state after the iteration for [attempt] has caught the retryable
    error [err], warned and slept. *)
Definition after_retry {R : Type} (model operation : jsstring)
    (env : environment R) (attempt : nat) (err : thrown) (detail : jsstring)
    (s : state) : state :=
  {| invocations := S (invocations s);
     draws := S (draws s);
     events :=
       (events s ++
        [Warn {| w_model := model;
                 w_operation := operation;
                 w_errorId := Enhanced.getErrorIdentifier err;
                 w_attempt := attempt + 1;
                 w_total := List.length Enhanced.RETRY_DELAYS_MS + 1;
                 w_seconds := div (Enhanced.delay_at attempt) (num 1000);
                 w_detail := detail |}]) ++
        [Timeout (Enhanced.jitter_with (Math_random env (draws s))
                                       (Enhanced.delay_at attempt))] |}.

(** Structural equality of numbers, as a test. *)
Definition same_number (x y : number) : bool :=
  match x, y with
  | S754_zero a, S754_zero b => Bool.eqb a b
  | S754_infinity a, S754_infinity b => Bool.eqb a b
  | S754_nan, S754_nan => true
  | S754_finite a m e, S754_finite b m' e' =>
      Bool.eqb a b && (m =? m')%positive && (e =? e')%Z
  | _, _ => false
  end.

(** For the base delay [d] and the integer jitter [q]: the sum is computed
    exactly and lies in [[d, d + 250)]. *)
Definition sum_in_window (d : Z) (q : nat) : bool :=
  let sum := add (num d) (num (Z.of_nat q)) in
  same_number sum (num (d + Z.of_nat q)) &&
  SFleb (num d) sum &&
  SFltb sum (num (d + 250)).

(** ** Sample operations *)

Definition cold_start : thrown :=
  PrismaClientInitializationError None
    (Some (js "Can't reach database server at db:5432")).

Definition unique_violation : thrown :=
  PrismaClientKnownRequestError (js "P2002")
    (Some (js "Unique constraint failed")).

Definition half : number := S754_finite false 4503599627370496 (-53).

(** Fails with [cold_start] on its first [k] calls, then returns 42. *)
Definition wakes_after (k : nat) : environment nat :=
  {| query := fun n => if n <? k then Rejected cold_start else Resolved 42;
     Math_random := fun _ => half |}.

Definition never_wakes : environment nat :=
  {| query := fun _ => Rejected cold_start;
     Math_random := fun _ => half |}.

Definition violates_constraint : environment nat :=
  {| query := fun _ => Rejected unique_violation;
     Math_random := fun _ => half |}.

Definition closed_connection : thrown :=
  PrismaClientInitializationError (Some (js "P1017"))
    (Some (js "Server has closed the connection.")).

(** Fails once with [closed_connection], then returns 42. *)
Definition closes_then_answers : environment nat :=
  {| query := fun n => if n <? 1 then Rejected closed_connection else Resolved 42;
     Math_random := fun _ => half |}.

(** A development server and a production server before the module is
    first evaluated. *)
Definition development : realm :=
  {| globalThis_prisma := None;
     NODE_ENV := Some (js "development");
     constructed := 0 |}.

Definition production : realm :=
  {| globalThis_prisma := None;
     NODE_ENV := Some (js "production");
     constructed := 0 |}.

(** * Properties *)

(** ** Strings and patterns *)

Lemma jsstring_eqb_eq (a b : jsstring) : jsstring_eqb a b = true <-> a = b.
Proof.
  revert b; induction a as [|x a IH]; intros [|y b]; simpl;
    try (split; [discriminate | congruence]); try tauto.
  rewrite andb_true_iff, N.eqb_eq, IH. split.
  - intros [-> ->]; reflexivity.
  - intros H; injection H; auto.
Qed.

Lemma includes_In (xs : list jsstring) (x : jsstring) :
  includes xs x = true <-> In x xs.
Proof.
  induction xs as [|y xs IH]; simpl.
  - split; [discriminate | tauto].
  - rewrite orb_true_iff, jsstring_eqb_eq, IH. tauto.
Qed.

Lemma canonicalize_same (a b : code_unit) :
  canonicalize a = canonicalize b <-> same_ignoring_case a b.
Proof.
  unfold canonicalize, same_ignoring_case.
  destruct (N.leb_spec 97 a), (N.leb_spec a 122),
           (N.leb_spec 97 b), (N.leb_spec b 122); simpl; lia.
Qed.

Lemma match_chars_prefix (pat s : jsstring) :
  match_chars pat s = true <->
  exists mid post, s = mid ++ post /\ Forall2 same_ignoring_case pat mid.
Proof.
  revert s; induction pat as [|p pat IH]; intros s; simpl.
  - split; [intros _; exists [], s; split; [reflexivity | constructor] | reflexivity].
  - destruct s as [|c s].
    + split; [discriminate|].
      intros (mid & post & E & F). inversion F; subst. discriminate.
    + rewrite andb_true_iff, N.eqb_eq, canonicalize_same, IH. split.
      * intros (Hc & mid & post & -> & F).
        exists (c :: mid), post. split; [reflexivity | constructor; assumption].
      * intros (mid & post & E & F). inversion F as [|? c' ? mid' Hc F']; subst.
        injection E as -> ->. split; [assumption | eauto].
Qed.

Lemma match_at_alternatives (r : regex) (s : jsstring) :
  match_at r s = true <->
  exists t, In t (alternatives r) /\ match_chars t s = true.
Proof.
  induction r as [cs | a IHa b IHb]; simpl.
  - split.
    + intros H; exists cs; auto.
    + intros (t & [<- | []] & H); exact H.
  - rewrite orb_true_iff, IHa, IHb. split.
    + intros [(t & Hin & H) | (t & Hin & H)]; exists t;
        (split; [apply in_or_app; auto | exact H]).
    + intros (t & Hin & H). apply in_app_or in Hin as [Hin | Hin]; eauto.
Qed.

Lemma test_suffix (r : regex) (s : jsstring) :
  test r s = true <-> exists pre rest, s = pre ++ rest /\ match_at r rest = true.
Proof.
  induction s as [|c s IH]; simpl.
  - rewrite orb_false_r. split.
    + intros H; exists [], []; auto.
    + intros (pre & rest & E & H).
      symmetry in E; apply app_eq_nil in E as [_ ->]; exact H.
  - rewrite orb_true_iff, IH. split.
    + intros [H | (pre & rest & -> & H)].
      * exists [], (c :: s); auto.
      * exists (c :: pre), rest; auto.
    + intros (pre & rest & E & H). destruct pre as [|c' pre]; simpl in E.
      * subst rest; auto.
      * injection E as -> ->; right; eauto.
Qed.

(** [test] decides case-insensitive substring occurrence of one of the
    pattern's texts. *)
Lemma test_matches (r : regex) (s : jsstring) :
  test r s = true <-> matches_ignoring_case r s.
Proof.
  rewrite test_suffix. unfold matches_ignoring_case, occurs_ignoring_case. split.
  - intros (pre & rest & -> & H).
    apply match_at_alternatives in H as (t & Hin & H).
    apply match_chars_prefix in H as (mid & post & -> & F).
    exists t; split; [exact Hin | exists pre, mid, post; auto].
  - intros (t & Hin & pre & mid & post & -> & F).
    exists pre, (mid ++ post); split; [reflexivity|].
    apply match_at_alternatives. exists t; split; [exact Hin|].
    apply match_chars_prefix; eauto.
Qed.

Lemma some_patterns (ps : list regex) (s : jsstring) :
  some (fun pattern => test pattern s) ps = true <->
  exists p, In p ps /\ matches_ignoring_case p s.
Proof.
  unfold some. rewrite existsb_exists.
  split; intros (p & Hin & H); exists p; (split; [exact Hin|]);
    apply test_matches; exact H.
Qed.

Lemma no_pattern_matches_empty (p : regex) :
  In p Enhanced.RETRYABLE_MESSAGE_PATTERNS -> test p (js "") = false.
Proof.
  intros H; repeat (destruct H as [<- | H]; [reflexivity|]); destruct H.
Qed.

(** ** The failure classifier *)

(** C1, as amended: every initialization error is retryable for the
    enhanced classifier, whatever its error code and message; the one-shot
    classifier retries an initialization error exactly when it carries an
    error code of [RETRYABLE_CODES]. *)
Theorem initialization_errors_retryable :
  forall (errorCode message : option jsstring),
    Enhanced.isRetryable (PrismaClientInitializationError errorCode message) = true /\
    (OneShot.isRetryable (PrismaClientInitializationError errorCode message) = true <->
     exists code, errorCode = Some code /\ In code RETRYABLE_CODES).
Proof.
  intros errorCode message. split; [reflexivity|].
  cbn [OneShot.isRetryable]. rewrite includes_In.
  destruct errorCode as [code|]; cbn [or_else].
  - split; [eauto | intros (c & [= <-] & H); exact H].
  - split.
    + intros H. repeat (destruct H as [H | H]; [discriminate|]). destruct H.
    + intros (c & [=] & _).
Qed.

(** C1 as stated fails for the one-shot classifier: an initialization error
    without an error code is retried by the enhanced classifier only. *)
Lemma one_shot_rejects_uncoded_initialization_error :
  Enhanced.isRetryable
    (PrismaClientInitializationError None
       (Some (js "Can't reach database server at db:5432"))) = true /\
  OneShot.isRetryable
    (PrismaClientInitializationError None
       (Some (js "Can't reach database server at db:5432"))) = false.
Proof. split; reflexivity. Qed.

(** C2: a known-request error is retryable exactly when its code is one of
    P1001, P1002, P1008, P1017, P2024, and not retryable for any other
    code; this holds for both classifiers. *)
Theorem known_request_error_retryable_iff_code :
  forall (code : jsstring) (message : option jsstring),
    let transient :=
      code = js "P1001" \/ code = js "P1002" \/ code = js "P1008" \/
      code = js "P1017" \/ code = js "P2024" in
    (Enhanced.isRetryable (PrismaClientKnownRequestError code message) = true
       <-> transient) /\
    (Enhanced.isRetryable (PrismaClientKnownRequestError code message) = false
       <-> ~ transient) /\
    OneShot.isRetryable (PrismaClientKnownRequestError code message) =
    Enhanced.isRetryable (PrismaClientKnownRequestError code message).
Proof.
  intros code message transient.
  assert (E : Enhanced.isRetryable (PrismaClientKnownRequestError code message) = true
              <-> transient).
  { cbn [Enhanced.isRetryable]. rewrite includes_In.
    unfold transient, RETRYABLE_CODES. cbn [In]. intuition congruence. }
  split; [exact E|]. split; [|reflexivity].
  rewrite <- E. destruct (Enhanced.isRetryable _); split; congruence.
Qed.

Lemma untagged_retryable (e : thrown) :
  untagged e ->
  Enhanced.isRetryable e =
  match message_text e with
  | Some msg =>
      some (fun pattern => test pattern msg) Enhanced.RETRYABLE_MESSAGE_PATTERNS
  | None => false
  end.
Proof.
  destruct e as [c m | c m | [m|] | | []]; simpl; try tauto; reflexivity.
Qed.

(** C3: for an error without an actionable structured tag, the enhanced
    classifier answers true exactly when the error has a text message in
    which a text of some entry of [RETRYABLE_MESSAGE_PATTERNS] occurs, up
    to the case of letters. *)
Theorem untagged_error_retryable_iff_message_matches :
  forall e : thrown,
    untagged e ->
    (Enhanced.isRetryable e = true <->
     exists msg, message_text e = Some msg /\
       exists p, In p Enhanced.RETRYABLE_MESSAGE_PATTERNS /\
                 matches_ignoring_case p msg).
Proof.
  intros e U. rewrite (untagged_retryable e U).
  destruct (message_text e) as [msg|].
  - rewrite some_patterns. split.
    + intros H; exists msg; auto.
    + intros (msg' & [= <-] & H); exact H.
  - split; [discriminate | intros (msg & [=] & _)].
Qed.

Lemma untagged_error_retryable_iff_message_matches_witness :
  Enhanced.isRetryable (ThrownOther (VString (js "read econnreset"))) = true <->
  exists msg,
    message_text (ThrownOther (VString (js "read econnreset"))) = Some msg /\
    exists p, In p Enhanced.RETRYABLE_MESSAGE_PATTERNS /\
              matches_ignoring_case p msg.
Proof.
  apply (untagged_error_retryable_iff_message_matches
           (ThrownOther (VString (js "read econnreset")))).
  exact I.
Defined.

(** C10: whatever the one-shot classifier retries, the enhanced classifier
    retries too, and the two differ on some error. *)
Theorem one_shot_stricter_than_enhanced :
  (forall e : thrown,
     OneShot.isRetryable e = true -> Enhanced.isRetryable e = true) /\
  (exists e : thrown, OneShot.isRetryable e <> Enhanced.isRetryable e).
Proof.
  split.
  - intros [c m | c m | m | | v]; simpl; intros H;
      try reflexivity; try exact H; discriminate.
  - exists (PrismaClientInitializationError None None). discriminate.
Qed.

Lemma one_shot_stricter_than_enhanced_witness :
  OneShot.isRetryable (PrismaClientKnownRequestError (js "P1001") None) = true /\
  Enhanced.isRetryable (PrismaClientKnownRequestError (js "P1001") None) = true.
Proof.
  split; [reflexivity|].
  apply (proj1 one_shot_stricter_than_enhanced
           (PrismaClientKnownRequestError (js "P1001") None)).
  reflexivity.
Defined.

(** ** The retry loop, one iteration at a time *)

Section LoopSteps.

Import Enhanced.

Variable R : Type.
Variables model operation : jsstring.
Variable env : environment R.

Lemma retryable_has_detail (err : thrown) :
  isRetryable err = true -> exists detail, truncated_message err = Some detail.
Proof.
  destruct err as [c [m|] | c [m|] | [m|] | | []]; simpl; eauto; discriminate.
Qed.

Lemma step_success remaining attempt lastError s r :
  query env (invocations s) = Resolved r ->
  for_loop model operation (S remaining) attempt lastError env s = (ReturnResult r, after_query s).
Proof.
  intros Q. cbn [for_loop]. unfold bind, await_query. rewrite Q. reflexivity.
Qed.

Lemma step_not_retryable remaining attempt lastError s err :
  query env (invocations s) = Rejected err ->
  isRetryable err = false ->
  for_loop model operation (S remaining) attempt lastError env s =
  (ThrowNotRetryable err, after_query s).
Proof.
  intros Q N. cbn [for_loop]. unfold bind, await_query. rewrite Q, N.
  reflexivity.
Qed.

Lemma step_exhausted remaining attempt lastError s err :
  query env (invocations s) = Rejected err ->
  isRetryable err = true ->
  List.length RETRY_DELAYS_MS <= attempt ->
  for_loop model operation (S remaining) attempt lastError env s =
  (ThrowExhausted err, after_query s).
Proof.
  intros Q Y L. cbn [for_loop]. unfold bind, await_query. rewrite Q, Y.
  apply Nat.leb_le in L. cbn [negb]. rewrite L. reflexivity.
Qed.

Lemma step_retry remaining attempt lastError s err detail :
  query env (invocations s) = Rejected err ->
  isRetryable err = true ->
  attempt < List.length RETRY_DELAYS_MS ->
  truncated_message err = Some detail ->
  for_loop model operation (S remaining) attempt lastError env s =
  for_loop model operation remaining (attempt + 1) err env (after_retry model operation env attempt err detail s).
Proof.
  intros Q Y L D. cbn [for_loop]. unfold bind at 1. unfold await_query at 1.
  rewrite Q, Y. cbn [negb].
  apply Nat.leb_gt in L. rewrite L, D. reflexivity.
Qed.

(** K retryable failures followed by a success: K + 1 calls, K warnings,
    K timeouts, and the result is returned. *)
Lemma loop_recovers K :
  forall remaining attempt lastError s r,
    K < remaining ->
    attempt + K <= List.length RETRY_DELAYS_MS ->
    (forall i, i < K ->
       exists err, query env (invocations s + i) = Rejected err /\
                   isRetryable err = true) ->
    query env (invocations s + K) = Resolved r ->
    exists s' evs,
      for_loop model operation remaining attempt lastError env s =
        (ReturnResult r, s') /\
      invocations s' = invocations s + K + 1 /\
      draws s' = draws s + K /\
      events s' = events s ++ evs /\
      count_warnings evs = K /\
      count_timeouts evs = K.
Proof.
  induction K as [|K IH]; intros remaining attempt lastError s r HR HA HF HS.
  - destruct remaining as [|remaining]; [lia|].
    rewrite Nat.add_0_r in HS. rewrite (step_success _ _ _ _ HS).
    exists (after_query s), []. cbn. rewrite app_nil_r.
    repeat split; lia.
  - destruct remaining as [|remaining]; [lia|].
    destruct (HF 0 ltac:(lia)) as (err & Q & Y). rewrite Nat.add_0_r in Q.
    destruct (retryable_has_detail _ Y) as (detail & D).
    assert (L : attempt < List.length RETRY_DELAYS_MS) by lia.
    rewrite (step_retry remaining lastError s Q Y L D).
    destruct (IH remaining (attempt + 1) err (after_retry model operation env attempt err detail s) r)
      as (s' & evs & E & I & Dr & Ev & W & T).
    + lia.
    + lia.
    + intros i Hi. cbn [after_retry invocations].
      destruct (HF (S i) ltac:(lia)) as (e' & Q' & Y').
      exists e'. split; [|exact Y'].
      rewrite <- Q'. f_equal. lia.
    + cbn [after_retry invocations]. rewrite <- HS. f_equal. lia.
    + cbn [after_retry invocations draws events] in I, Dr, Ev.
      eexists s', (_ :: _ :: evs). split; [exact E|].
      split; [lia|]. split; [lia|].
      split; [rewrite Ev, <- !app_assoc; reflexivity|].
      split; cbn; [rewrite <- W | rewrite <- T]; reflexivity.
Qed.

(** Nothing but retryable failures: the loop gives up in the iteration
    for [attempt = RETRY_DELAYS_MS.length], throwing what that call
    threw; every earlier iteration has warned and waited once. *)
Lemma loop_exhausts remaining :
  forall attempt lastError s,
    remaining + attempt = List.length RETRY_DELAYS_MS + 1 ->
    0 < remaining ->
    (forall i, exists err, query env (invocations s + i) = Rejected err /\
                           isRetryable err = true) ->
    exists s' err evs,
      query env (invocations s + (remaining - 1)) = Rejected err /\
      for_loop model operation remaining attempt lastError env s =
        (ThrowExhausted err, s') /\
      invocations s' = invocations s + remaining /\
      events s' = events s ++ evs /\
      count_warnings evs = remaining - 1 /\
      count_timeouts evs = remaining - 1.
Proof.
  induction remaining as [|remaining IH]; intros attempt lastError s HI HP HF;
    [lia|].
  destruct (HF 0) as (err & Q & Y). rewrite Nat.add_0_r in Q.
  destruct remaining as [|remaining].
  - exists (after_query s), err, [].
    assert (L : List.length RETRY_DELAYS_MS <= attempt) by lia.
    rewrite (step_exhausted 0 lastError s Q Y L).
    cbn. rewrite Nat.add_0_r, app_nil_r. repeat split; [exact Q | lia].
  - destruct (retryable_has_detail _ Y) as (detail & D).
    assert (L : attempt < List.length RETRY_DELAYS_MS) by lia.
    rewrite (step_retry (S remaining) lastError s Q Y L D).
    destruct (IH (attempt + 1) err
                 (after_retry model operation env attempt err detail s))
      as (s' & e' & evs & Q' & E & I & Ev & W & T); [lia | lia | |].
    + intros i. cbn [after_retry invocations].
      destruct (HF (S i)) as (e' & Q' & Y').
      exists e'. split; [|exact Y']. rewrite <- Q'. f_equal. lia.
    + cbn [after_retry invocations events] in Q', I, Ev.
      eexists s', e', (_ :: _ :: evs).
      split; [rewrite <- Q'; f_equal; lia|].
      split; [exact E|]. split; [lia|].
      split; [rewrite Ev, <- !app_assoc; reflexivity|].
      split;
        [change (S (count_warnings evs) = S (S remaining) - 1)
        |change (S (count_timeouts evs) = S (S remaining) - 1)]; lia.
Qed.

(** While the loop condition holds at entry, the loop is left from
    inside: by the [return] of the [try] block or by one of the two
    [throw]s of the [catch] block. *)
Lemma loop_left_from_inside remaining :
  forall attempt lastError s,
    remaining + attempt = List.length RETRY_DELAYS_MS + 1 ->
    0 < remaining ->
    left_from_inside
      (fst (for_loop model operation remaining attempt lastError env s)).
Proof.
  induction remaining as [|remaining IH]; intros attempt lastError s HI HP;
    [lia|].
  destruct (query env (invocations s)) as [r | err] eqn:Q.
  - rewrite (step_success _ _ _ _ Q). exact I.
  - destruct (isRetryable err) eqn:Y.
    + destruct (Nat.le_gt_cases (List.length RETRY_DELAYS_MS) attempt) as [L | L].
      * rewrite (step_exhausted _ _ _ Q Y L). exact I.
      * destruct (retryable_has_detail _ Y) as (detail & D).
        rewrite (step_retry _ _ _ Q Y L D). apply IH; lia.
    + rewrite (step_not_retryable _ _ _ _ Q Y). exact I.
Qed.

End LoopSteps.

(** ** The retrying extension *)

Section Extension.

Import Enhanced.

Variable R : Type.
Variables model operation : jsstring.

(** C4: when the first call of the operation fails with an error that is
    not retryable, the extension throws that very error after this one
    call, without a timeout and without a warning. *)
Theorem non_retryable_failure_propagates_at_once :
  forall (env : environment R) (err : thrown),
    query env 0 = Rejected err ->
    isRetryable err = false ->
    let (x, s) := allOperations model operation env initial in
    x = ThrowNotRetryable err /\
    settle x = RejectedWith err /\
    invocations s = 1 /\
    count_timeouts (events s) = 0 /\
    count_warnings (events s) = 0 /\
    events s = [].
Proof.
  intros env err Q N. unfold allOperations.
  change (List.length RETRY_DELAYS_MS + 1 - 0) with 4.
  rewrite (step_not_retryable model operation env 3 0 ThrownNullish initial Q N).
  repeat split.
Qed.

(** C5: when every call of the operation fails with a retryable error,
    the extension calls it once more than there are delays, four times,
    and then throws the error of that last call.  It has warned and waited
    once per delay, and not for the last failure. *)
Theorem persistent_retryable_failure_exhausts :
  forall env : environment R,
    (forall n, exists err, query env n = Rejected err /\ isRetryable err = true) ->
    let (x, s) := allOperations model operation env initial in
    exists err,
      query env (List.length RETRY_DELAYS_MS) = Rejected err /\
      x = ThrowExhausted err /\
      settle x = RejectedWith err /\
      invocations s = List.length RETRY_DELAYS_MS + 1 /\
      invocations s = 4 /\
      count_warnings (events s) = List.length RETRY_DELAYS_MS /\
      count_timeouts (events s) = List.length RETRY_DELAYS_MS.
Proof.
  intros env HF. unfold allOperations.
  destruct (@loop_exhausts R model operation env
              (List.length RETRY_DELAYS_MS + 1 - 0) 0 ThrownNullish initial)
    as (s' & err & evs & Q & E & I & Ev & W & T);
    [reflexivity | cbn; lia | exact HF |].
  rewrite E. exists err. cbn in Q, I, Ev, W, T |- *. subst evs.
  rewrite I, W, T. repeat split. exact Q.
Qed.

(** Recovery on any attempt the schedule allows, the last one included. *)
Lemma recovers_within_schedule :
  forall (env : environment R) (K : nat) (r : R),
    K <= List.length RETRY_DELAYS_MS ->
    (forall i, i < K ->
       exists err, query env i = Rejected err /\ isRetryable err = true) ->
    query env K = Resolved r ->
    let (x, s) := allOperations model operation env initial in
    x = ReturnResult r /\
    invocations s = K + 1 /\
    count_timeouts (events s) = K /\
    count_warnings (events s) = K.
Proof.
  intros env K r HK HF HS. unfold allOperations.
  destruct (@loop_recovers R model operation env K
              (List.length RETRY_DELAYS_MS + 1 - 0) 0 ThrownNullish initial r)
    as (s' & evs & E & I & _ & Ev & W & T);
    [cbn in HK |- *; lia | cbn in HK |- *; lia | exact HF | exact HS |].
  rewrite E. cbn in I, Ev. subst evs. repeat split; assumption.
Qed.

(** C6: when the operation fails with retryable errors exactly K times,
    K below the number of delays, and then succeeds, the extension calls
    it K + 1 times, waits K times, warns K times and returns the
    result. *)
Theorem recovers_after_retryable_failures :
  forall (env : environment R) (K : nat) (r : R),
    K < List.length RETRY_DELAYS_MS ->
    (forall i, i < K ->
       exists err, query env i = Rejected err /\ isRetryable err = true) ->
    query env K = Resolved r ->
    let (x, s) := allOperations model operation env initial in
    x = ReturnResult r /\
    settle x = Fulfilled r /\
    invocations s = K + 1 /\
    count_timeouts (events s) = K /\
    count_warnings (events s) = K.
Proof.
  intros env K r HK HF HS.
  pose proof (@recovers_within_schedule env K r (Nat.lt_le_incl _ _ HK) HF HS)
    as H.
  destruct (allOperations model operation env initial) as [x s].
  destruct H as (-> & I & T & W). repeat split; assumption.
Qed.

(** C7: when the first call of the operation succeeds, the extension
    returns its result after this one call, without a timeout and without
    a warning, leaving the same trace as calling the operation directly. *)
Theorem first_success_is_returned :
  forall (env : environment R) (r : R),
    query env 0 = Resolved r ->
    let (x, s) := allOperations model operation env initial in
    x = ReturnResult r /\
    settle x = Fulfilled r /\
    invocations s = 1 /\
    count_timeouts (events s) = 0 /\
    count_warnings (events s) = 0 /\
    (Resolved r, s) = await_query env initial.
Proof.
  intros env r Q. unfold allOperations.
  change (List.length RETRY_DELAYS_MS + 1 - 0) with 4.
  rewrite (step_success model operation env 3 0 ThrownNullish initial Q).
  unfold await_query. cbn [initial invocations]. rewrite Q. repeat split.
Qed.

(** C9: whatever the operation does and whatever state the extension
    starts in, it ends by the [return] of the [try] block or by a [throw]
    of the [catch] block, never by the [throw lastError] that follows the
    loop. *)
Theorem throw_after_loop_unreachable :
  forall (env : environment R) (s : state),
    left_from_inside (fst (allOperations model operation env s)) /\
    forall lastError : thrown,
      fst (allOperations model operation env s) <> ThrowAfterLoop lastError.
Proof.
  intros env s.
  assert (H : left_from_inside (fst (allOperations model operation env s))).
  { unfold allOperations. apply loop_left_from_inside; cbn; lia. }
  split; [exact H|].
  intros lastError E. rewrite E in H. exact H.
Qed.

End Extension.

Lemma non_retryable_failure_propagates_at_once_witness :
  query violates_constraint 0 = Rejected unique_violation /\
  Enhanced.isRetryable unique_violation = false /\
  let (x, s) :=
    Enhanced.allOperations (js "User") (js "create") violates_constraint initial in
  x = ThrowNotRetryable unique_violation /\
  settle x = RejectedWith unique_violation /\
  invocations s = 1 /\
  count_timeouts (events s) = 0 /\
  count_warnings (events s) = 0 /\
  events s = [].
Proof.
  split; [reflexivity|]. split; [reflexivity|].
  apply (non_retryable_failure_propagates_at_once
           (js "User") (js "create") violates_constraint (err := unique_violation));
    reflexivity.
Defined.

Lemma persistent_retryable_failure_exhausts_witness :
  (forall n, exists err,
      query never_wakes n = Rejected err /\ Enhanced.isRetryable err = true) /\
  let (x, s) :=
    Enhanced.allOperations (js "User") (js "findMany") never_wakes initial in
  exists err,
    query never_wakes (List.length Enhanced.RETRY_DELAYS_MS) = Rejected err /\
    x = ThrowExhausted err /\
    settle x = RejectedWith err /\
    invocations s = List.length Enhanced.RETRY_DELAYS_MS + 1 /\
    invocations s = 4 /\
    count_warnings (events s) = List.length Enhanced.RETRY_DELAYS_MS /\
    count_timeouts (events s) = List.length Enhanced.RETRY_DELAYS_MS.
Proof.
  assert (H : forall n, exists err,
             query never_wakes n = Rejected err /\ Enhanced.isRetryable err = true).
  { intros n. exists cold_start. split; reflexivity. }
  split; [exact H|].
  apply (persistent_retryable_failure_exhausts
           (js "User") (js "findMany") never_wakes H).
Defined.

Lemma recovers_after_retryable_failures_witness :
  2 < List.length Enhanced.RETRY_DELAYS_MS /\
  (forall i, i < 2 ->
     exists err, query (wakes_after 2) i = Rejected err /\
                 Enhanced.isRetryable err = true) /\
  query (wakes_after 2) 2 = Resolved 42 /\
  let (x, s) :=
    Enhanced.allOperations (js "User") (js "findMany") (wakes_after 2) initial in
  x = ReturnResult 42 /\
  settle x = Fulfilled 42 /\
  invocations s = 2 + 1 /\
  count_timeouts (events s) = 2 /\
  count_warnings (events s) = 2.
Proof.
  assert (L : 2 < List.length Enhanced.RETRY_DELAYS_MS) by (simpl; lia).
  assert (F : forall i, i < 2 ->
                exists err, query (wakes_after 2) i = Rejected err /\
                            Enhanced.isRetryable err = true).
  { intros i Hi. exists cold_start.
    destruct i as [|[|i]]; [split; reflexivity | split; reflexivity | lia]. }
  split; [exact L|]. split; [exact F|]. split; [reflexivity|].
  apply (recovers_after_retryable_failures
           (js "User") (js "findMany") (wakes_after 2) (K := 2) L F).
  reflexivity.
Defined.

Lemma first_success_is_returned_witness :
  query (wakes_after 0) 0 = Resolved 42 /\
  let (x, s) :=
    Enhanced.allOperations (js "User") (js "findMany") (wakes_after 0) initial in
  x = ReturnResult 42 /\
  settle x = Fulfilled 42 /\
  invocations s = 1 /\
  count_timeouts (events s) = 0 /\
  count_warnings (events s) = 0 /\
  (Resolved 42, s) = await_query (wakes_after 0) initial.
Proof.
  split; [reflexivity|].
  apply (first_success_is_returned (js "User") (js "findMany") (wakes_after 0)).
  reflexivity.
Defined.

(** ** The jittered delay *)

Section Rounding.

Local Open Scope Z_scope.
Local Unset Implicit Arguments.

Lemma digits2_pos_bounds (p : positive) :
  2 ^ (Zpos (digits2_pos p) - 1) <= Zpos p < 2 ^ Zpos (digits2_pos p).
Proof.
  induction p as [p IH | p IH |]; cbn [digits2_pos].
  - rewrite Pos2Z.inj_succ, Z.pow_succ_r by lia.
    replace (Z.succ (Zpos (digits2_pos p)) - 1) with (Z.succ (Zpos (digits2_pos p) - 1)) by lia.
    rewrite Z.pow_succ_r by lia. lia.
  - rewrite Pos2Z.inj_succ, Z.pow_succ_r by lia.
    replace (Z.succ (Zpos (digits2_pos p)) - 1) with (Z.succ (Zpos (digits2_pos p) - 1)) by lia.
    rewrite Z.pow_succ_r by lia. lia.
  - cbn. lia.
Qed.

Lemma iter_pos_nat {A} (f : A -> A) (p : positive) (x : A) :
  iter_pos f p x = Nat.iter (Pos.to_nat p) f x.
Proof.
  revert x; induction p as [p IH | p IH |]; intros x; cbn [iter_pos].
  - rewrite !IH, Pos2Nat.inj_xI.
    replace (S (2 * Pos.to_nat p)) with (Pos.to_nat p + (Pos.to_nat p + 1))%nat by lia.
    rewrite !Nat.iter_add. reflexivity.
  - rewrite !IH, Pos2Nat.inj_xO.
    replace (2 * Pos.to_nat p)%nat with (Pos.to_nat p + Pos.to_nat p)%nat by lia.
    rewrite Nat.iter_add. reflexivity.
  - reflexivity.
Qed.

Lemma shr_1_m (x : shr_record) :
  0 <= shr_m x -> shr_m (shr_1 x) = shr_m x / 2.
Proof.
  destruct x as [m r s]; cbn [shr_m]. intros H.
  rewrite <- Z.div2_div.
  destruct m as [|[p|p|]|p]; try reflexivity; lia.
Qed.

Lemma shr_1_r (x : shr_record) :
  0 <= shr_m x -> shr_r (shr_1 x) = Z.odd (shr_m x).
Proof.
  destruct x as [m r s]; cbn [shr_m]. intros H.
  destruct m as [|[p|p|]|p]; try reflexivity; lia.
Qed.

Lemma iter_shr_1_m (k : nat) (x : shr_record) :
  0 <= shr_m x ->
  shr_m (Nat.iter k shr_1 x) = shr_m x / 2 ^ Z.of_nat k.
Proof.
  intros H. induction k as [|k IH].
  - cbn. rewrite Z.div_1_r. reflexivity.
  - rewrite Nat.iter_succ, shr_1_m, IH.
    + rewrite Nat2Z.inj_succ, Z.pow_succ_r by lia.
      rewrite Z.div_div by lia. f_equal. lia.
    + rewrite IH. apply Z.div_pos; lia.
Qed.

Lemma iter_shr_1_r (k : nat) (x : shr_record) :
  0 <= shr_m x ->
  shr_r (Nat.iter (S k) shr_1 x) = Z.odd (shr_m x / 2 ^ Z.of_nat k).
Proof.
  intros H. rewrite Nat.iter_succ, shr_1_r, iter_shr_1_m by
    (try rewrite iter_shr_1_m by assumption; try apply Z.div_pos; lia).
  reflexivity.
Qed.

Lemma round_nearest_even_up (m : Z) (x : shr_record) :
  m <= round_nearest_even m (loc_of_shr_record x) <= m + 1 /\
  (shr_r x = false -> round_nearest_even m (loc_of_shr_record x) = m).
Proof.
  destruct x as [m' [|] [|]]; cbn; try destruct (Z.even m); repeat split; try lia; discriminate.
Qed.

(** Shifting [M] right by [n] places and rounding to nearest overshoots [M]
    by at most half a unit of the last place kept. *)
Lemma shr_round (M e0 n : Z) :
  0 <= M -> 0 <= n ->
  let '(x, e) := shr (Build_shr_record M false false) e0 n in
  let m2 := round_nearest_even (shr_m x) (loc_of_shr_record x) in
  e = e0 + n /\ shr_m x = M / 2 ^ n /\
  shr_m x <= m2 <= shr_m x + 1 /\ 2 * (m2 * 2 ^ n) <= 2 * M + 2 ^ n.
Proof.
  intros HM Hn. destruct n as [|p|p]; [| |lia].
  - cbn [shr]. cbn [shr_m loc_of_shr_record round_nearest_even]. rewrite Z.div_1_r. lia.
  - cbn [shr]. rewrite iter_pos_nat.
    remember (Pos.to_nat p) as k eqn:Dk.
    assert (Ek : Zpos p = Z.of_nat k) by (subst k; lia).
    set (x := Nat.iter k shr_1 _).
    assert (Hm : shr_m x = M / 2 ^ Zpos p).
    { unfold x. rewrite iter_shr_1_m by (cbn; lia). cbn [shr_m]. rewrite Ek. reflexivity. }
    destruct (round_nearest_even_up (shr_m x) x) as [B1 B2].
    split; [reflexivity|]. split; [exact Hm|]. split; [exact B1|].
    assert (P : 0 < 2 ^ Zpos p) by (apply Z.pow_pos_nonneg; lia).
    pose proof (Z.mul_div_le M (2 ^ Zpos p) P) as Fl.
    destruct (shr_r x) eqn:Rx.
    + destruct k as [|k']; [lia|].
      unfold x in Rx. rewrite iter_shr_1_r in Rx by (cbn; lia). cbn [shr_m] in Rx.
      assert (E2 : 2 ^ Zpos p = 2 * 2 ^ Z.of_nat k').
      { rewrite Ek, Nat2Z.inj_succ, Z.pow_succ_r by lia. reflexivity. }
      assert (P' : 0 < 2 ^ Z.of_nat k') by (apply Z.pow_pos_nonneg; lia).
      pose proof (Z.mul_div_le M (2 ^ Z.of_nat k') P') as Fl'.
      set (h := M / 2 ^ Z.of_nat k') in *.
      assert (Hh : M / 2 ^ Zpos p = h / 2).
      { rewrite E2. unfold h. rewrite (Z.mul_comm 2), <- Z.div_div by lia. reflexivity. }
      rewrite Z.odd_spec in Rx. destruct Rx as [j Hj].
      assert (Hj2 : h / 2 = j).
      { symmetry. apply Z.div_unique with (r := 1); lia. }
      rewrite Hm, Hh, Hj2 in *. rewrite E2. nia.
    + rewrite (B2 eq_refl). nia.
Qed.

Lemma shr_floor (M e0 n : Z) :
  0 <= M ->
  let '(x, e) := shr (Build_shr_record M false false) e0 n in
  e = e0 + Z.max 0 n /\ shr_m x = M / 2 ^ Z.max 0 n.
Proof.
  intros HM. destruct (Z.le_gt_cases 0 n) as [Hn | Hn].
  - pose proof (shr_round M e0 n HM Hn) as H.
    destruct (shr _ e0 n) as [x e]. cbv zeta in H. rewrite Z.max_r by lia. tauto.
  - destruct n as [|p|p]; try lia. cbn. rewrite Z.div_1_r. lia.
Qed.

Lemma Zdigits2_le (x k : Z) : 0 <= x < 2 ^ k -> 0 <= k -> Zdigits2 x <= k.
Proof.
  intros [H0 H1] Hk. destruct x as [|p|p]; cbn [Zdigits2]; try lia.
  pose proof (digits2_pos_bounds p) as [L _].
  destruct (Z.le_gt_cases (Zpos (digits2_pos p)) k) as [|G]; [assumption|].
  assert (2 ^ k <= 2 ^ (Zpos (digits2_pos p) - 1)) by (apply Z.pow_le_mono_r; lia).
  lia.
Qed.

Lemma Zdigits2_ge (x k : Z) : 2 ^ k <= x -> 0 <= k -> k < Zdigits2 x.
Proof.
  intros H Hk. assert (0 < 2 ^ k) by (apply Z.pow_pos_nonneg; lia).
  destruct x as [|p|p]; cbn [Zdigits2]; try lia.
  pose proof (digits2_pos_bounds p) as [_ U].
  destruct (Z.lt_ge_cases k (Zpos (digits2_pos p))) as [|G]; [assumption|].
  assert (2 ^ Zpos (digits2_pos p) <= 2 ^ k) by (apply Z.pow_le_mono_r; lia).
  lia.
Qed.

Lemma floor_mul_250 (m : positive) (e : Z) :
  Zpos m < 2 ^ 53 -> -1074 <= e <= -53 ->
  exists q, 0 <= q < 250 /\
    Math_floor (mul (S754_finite false m e) (num 250)) = num q.
Proof.
  intros Hm He.
  change (num 250) with (S754_finite false 8796093022208000 (-45)).
  unfold mul. cbn [SFmul xorb].
  unfold binary_round_aux, shr_fexp. cbn [shr_record_of_loc].
  set (M := Zpos (m * 8796093022208000)).
  set (E := e + -45).
  assert (EM : M = Zpos m * (250 * 2 ^ 45))
    by (unfold M; rewrite Pos2Z.inj_mul; reflexivity).
  assert (M0 : 2 ^ 52 <= M) by (rewrite EM; lia).
  assert (M1 : M < 2 ^ 106).
  { rewrite EM. change (2 ^ 106) with (2 ^ 53 * 2 ^ 53). nia. }
  pose proof (Zdigits2_ge M 52 M0 ltac:(lia)) as D0.
  pose proof (Zdigits2_le M 106 ltac:(lia) ltac:(lia)) as D1.
  assert (MU : M < 2 ^ Zdigits2 M).
  { unfold M. cbn [Zdigits2]. apply digits2_pos_bounds. }
  set (dM := Zdigits2 M) in *.
  set (n := fexp 53 1024 (dM + E) - E).
  assert (En : n = Z.max (dM + E - 53) (-1074) - E) by reflexivity.
  assert (Hn : 0 <= n <= 53) by (unfold E in *; lia).
  pose proof (shr_round M E n ltac:(lia) ltac:(lia)) as H1.
  destruct (shr {| shr_m := M; shr_r := false; shr_s := false |} E n) as [x1 e1].
  cbv zeta in H1. destruct H1 as (-> & Hx1 & Hr1 & Hr2).
  set (m2 := round_nearest_even (shr_m x1) (loc_of_shr_record x1)) in *.
  assert (PN : 0 < 2 ^ n) by (apply Z.pow_pos_nonneg; lia).
  assert (Hm1 : 0 <= shr_m x1 < 2 ^ 53).
  { rewrite Hx1. split; [apply Z.div_pos; lia|].
    apply Z.div_lt_upper_bound; [lia|].
    rewrite <- Z.pow_add_r by lia.
    eapply Z.lt_le_trans; [exact MU|]. apply Z.pow_le_mono_r; lia. }
  assert (Hm2 : 0 <= m2 < 2 ^ 54) by (change (2 ^ 54) with (2 * 2 ^ 53); lia).
  pose proof (Zdigits2_le m2 54 Hm2 ltac:(lia)) as D2.
  assert (D2' : 0 <= Zdigits2 m2) by (destruct m2; cbn; lia).
  set (n2 := fexp 53 1024 (Zdigits2 m2 + (E + n)) - (E + n)).
  assert (En2 : n2 = Z.max (Zdigits2 m2 + (E + n) - 53) (-1074) - (E + n))
    by reflexivity.
  pose proof (shr_floor m2 (E + n) n2 ltac:(lia)) as H2.
  destruct (shr {| shr_m := m2; shr_r := false; shr_s := false |} (E + n) n2)
    as [x2 e2].
  destruct H2 as (-> & Hx2).
  set (a := Z.max 0 n2) in *.
  assert (Ha : 0 <= a <= 1) by (unfold a, E in *; lia).
  assert (PA : 0 < 2 ^ a) by (apply Z.pow_pos_nonneg; lia).
  assert (He2 : E + n + a <= -44) by (unfold E in *; lia).
  pose proof (Z.mul_div_le m2 (2 ^ a) PA) as Fl2. rewrite <- Hx2 in Fl2.
  assert (H3 : 0 <= shr_m x2) by (rewrite Hx2; apply Z.div_pos; lia).
  destruct (shr_m x2) as [|m3|m3] eqn:Em3; [| |lia].
  - exists 0. split; [lia | reflexivity].
  - destruct (Z.leb_spec (E + n + a) (1024 - 53)) as [_|G]; [|lia].
    cbn [Math_floor].
    destruct (Z.leb_spec 0 (E + n + a)) as [G|_]; [lia|].
    cbn [cond_Zopp].
    exists (Z.shiftr (Zpos m3) (- (E + n + a))). split; [|reflexivity].
    rewrite Z.shiftr_div_pow2 by lia.
    set (k := - (E + n + a)).
    assert (PK : 0 < 2 ^ k) by (apply Z.pow_pos_nonneg; lia).
    split; [apply Z.div_pos; lia|].
    apply Z.div_lt_upper_bound; [lia|].
    (* 2^45 * 2^(-e) = 2^k * 2^n * 2^a *)
    assert (PE : 0 < 2 ^ (- e)) by (apply Z.pow_pos_nonneg; lia).
    assert (Q : 2 ^ 45 * 2 ^ (- e) = 2 ^ k * (2 ^ n * 2 ^ a)).
    { rewrite <- !Z.pow_add_r by lia. f_equal. unfold k, E. lia. }
    assert (Pm : Zpos m + 1 <= 2 ^ (- e)).
    { assert (2 ^ 53 <= 2 ^ (- e)) by (apply Z.pow_le_mono_r; lia). lia. }
    assert (N53 : 2 ^ n <= 2 ^ 53) by (apply Z.pow_le_mono_r; lia).
    destruct (Z.lt_ge_cases (Zpos m3) (2 ^ k * 250)) as [|G]; [assumption|exfalso].
    assert (T1 : 2 ^ k * 250 * 2 ^ a <= m2).
    { apply Z.le_trans with (Zpos m3 * 2 ^ a); [|lia].
      apply Z.mul_le_mono_nonneg_r; lia. }
    assert (S1 : 2 ^ k * 250 * 2 ^ a * 2 ^ n <= m2 * 2 ^ n)
      by (apply Z.mul_le_mono_nonneg_r; lia).
    assert (S3 : 2 ^ k * 250 * 2 ^ a * 2 ^ n = 250 * (2 ^ 45 * 2 ^ (- e)))
      by (rewrite Q; ring).
    assert (S4 : Zpos m * (250 * 2 ^ 45) <= (2 ^ (- e) - 1) * (250 * 2 ^ 45))
      by (apply Z.mul_le_mono_nonneg_r; lia).
    rewrite S3 in S1. rewrite EM in Hr2.
    change (2 ^ 53) with (256 * 2 ^ 45) in N53.
    set (P := 2 ^ (- e)) in *. set (N := 2 ^ n) in *.
    clearbody P N. lia.
Qed.

Lemma same_number_eq (x y : number) : same_number x y = true -> x = y.
Proof.
  destruct x as [a | a | | a m e], y as [b | b | | b m' e']; cbn;
    try discriminate; try reflexivity.
  - intros H; apply Bool.eqb_prop in H; congruence.
  - intros H; apply Bool.eqb_prop in H; congruence.
  - rewrite !andb_true_iff, Pos.eqb_eq, Z.eqb_eq.
    intros [[H ->] ->]. apply Bool.eqb_prop in H. congruence.
Qed.

Lemma sums_in_window :
  forallb (fun d => forallb (sum_in_window d) (seq 0 250))
          Enhanced.RETRY_DELAYS_MS = true.
Proof. vm_compute. reflexivity. Qed.

Lemma add_integer_jitter (d q : Z) :
  In d Enhanced.RETRY_DELAYS_MS -> 0 <= q < 250 ->
  add (num d) (num q) = num (d + q) /\
  SFleb (num d) (add (num d) (num q)) = true /\
  SFltb (add (num d) (num q)) (num (d + 250)) = true.
Proof.
  intros Hd Hq. pose proof sums_in_window as H.
  rewrite forallb_forall in H. specialize (H d Hd).
  rewrite forallb_forall in H. specialize (H (Z.to_nat q)).
  unfold sum_in_window in H. rewrite Z2Nat.id in H by lia.
  rewrite !andb_true_iff in H.
  destruct H as [[H1 H2] H3]; [apply in_seq; lia|].
  apply same_number_eq in H1. auto.
Qed.

(** A number of the unit interval is a zero or a positive number with an
    exponent of at most -53. *)
Lemma unit_interval_cases (r : number) :
  unit_interval r ->
  (exists s, r = S754_zero s) \/
  (exists m e, r = S754_finite false m e /\
               Zpos m < 2 ^ 53 /\ -1074 <= e <= -53).
Proof.
  intros (V & L & U). destruct r as [s | s | | s m e].
  - left; eauto.
  - destruct s; vm_compute in L, U; discriminate.
  - vm_compute in L; discriminate.
  - right. destruct s; [vm_compute in L; discriminate|].
    exists m, e. split; [reflexivity|].
    cbn [valid_binary] in V. unfold bounded, canonical_mantissa, fexp, emin in V.
    apply andb_true_iff in V as [C _]. apply Z.eqb_eq in C.
    change (3 - 1024 - 53) with (-1074) in C.
    pose proof (digits2_pos_bounds m) as [Lo Hi].
    change (num 1) with (S754_finite false 4503599627370496 (-52)) in U.
    unfold SFltb, SFcompare in U.
    assert (D : Zpos (digits2_pos m) <= 53) by lia.
    assert (Hi' : 2 ^ Zpos (digits2_pos m) <= 2 ^ 53)
      by (apply Z.pow_le_mono_r; lia).
    split; [lia|]. split; [lia|].
    destruct (Z.compare_spec e (-52)) as [E | E | E]; [| lia | discriminate U].
    rewrite Pos.compare_cont_spec in U.
    destruct (Pos.compare_spec m 4503599627370496) as [Cm | Cm | Cm];
      cbn [Pos.switch_Eq] in U; [discriminate U | | discriminate U].
    apply Pos2Z.pos_lt_pos in Cm.
    assert (Zpos (digits2_pos m) = 53) by lia.
    replace (Zpos (digits2_pos m) - 1) with 52 in Lo by lia.
    change (2 ^ 52) with 4503599627370496 in Lo. lia.
Qed.

Lemma jitter_with_window (d : Z) (r : number) :
  In d Enhanced.RETRY_DELAYS_MS ->
  unit_interval r ->
  exists k,
    Enhanced.jitter_with r (num d) = num k /\
    d <= k < d + 250 /\
    SFleb (num d) (Enhanced.jitter_with r (num d)) = true /\
    SFltb (Enhanced.jitter_with r (num d)) (num (d + 250)) = true.
Proof.
  intros Hd Hr. unfold Enhanced.jitter_with.
  destruct (unit_interval_cases _ Hr) as [[s ->] | (m & e & -> & Hm & He)].
  - exists d.
    assert (E : add (num d) (Math_floor (mul (S754_zero s) (num 250))) = num d).
    { repeat (destruct Hd as [<- | Hd]; [destruct s; reflexivity|]). destruct Hd. }
    rewrite E. split; [reflexivity|]. split; [lia|].
    repeat (destruct Hd as [<- | Hd]; [split; reflexivity|]). destruct Hd.
  - destruct (floor_mul_250 m e Hm He) as (q & Hq & ->).
    destruct (add_integer_jitter d q Hd Hq) as (E & L & U).
    exists (d + q). rewrite E in *. split; [reflexivity|]. split; [lia|]. auto.
Qed.

(** The base delay of a retrying iteration is an entry of the schedule. *)
Lemma delay_at_schedule (attempt : nat) :
  (attempt < List.length Enhanced.RETRY_DELAYS_MS)%nat ->
  exists d, In d Enhanced.RETRY_DELAYS_MS /\ Enhanced.delay_at attempt = num d.
Proof.
  intros H. unfold Enhanced.delay_at.
  destruct (nth_error Enhanced.RETRY_DELAYS_MS attempt) as [d|] eqn:E.
  - exists d. split; [eapply nth_error_In; exact E | reflexivity].
  - apply nth_error_None in E. lia.
Qed.

End Rounding.

(** C8: for every base delay of [RETRY_DELAYS_MS] and whatever number of
    [[0, 1)] [Math.random] returns, [jitter] computes an integer number of
    milliseconds that is at least the base delay and less than the base
    delay plus 250. *)
Theorem jitter_within_window :
  forall (R : Type) (env : environment R) (s : state) (d : Z),
    In d Enhanced.RETRY_DELAYS_MS ->
    unit_interval (Math_random env (draws s)) ->
    let ms := fst (Enhanced.jitter (num d) env s) in
    exists k : Z,
      ms = num k /\
      (d <= k < d + 250)%Z /\
      SFleb (num d) ms = true /\
      SFltb ms (num (d + 250)) = true.
Proof.
  intros R env s d Hd Hr. cbn.
  exact (jitter_with_window d _ Hd Hr).
Qed.

Lemma jitter_within_window_witness :
  In 1000%Z Enhanced.RETRY_DELAYS_MS /\
  unit_interval (Math_random never_wakes (draws initial)) /\
  let ms := fst (Enhanced.jitter (num 1000) never_wakes initial) in
  exists k : Z,
    ms = num k /\
    (1000 <= k < 1000 + 250)%Z /\
    SFleb (num 1000) ms = true /\
    SFltb ms (num (1000 + 250)) = true.
Proof.
  assert (Hd : In 1000%Z Enhanced.RETRY_DELAYS_MS) by (left; reflexivity).
  assert (Hr : unit_interval (Math_random never_wakes (draws initial)))
    by (repeat split; reflexivity).
  split; [exact Hd|]. split; [exact Hr|].
  exact (@jitter_within_window nat never_wakes initial 1000%Z Hd Hr).
Defined.

(** ** Worked scenarios *)

(** Three cold-start failures, success on the fourth attempt: three
    warnings, three timeouts of 1125, 2125 and 3125 ms for the random
    number one half. *)
Example wakes_on_fourth_attempt :
  Enhanced.allOperations (js "User") (js "findMany") (wakes_after 3) initial =
  (ReturnResult 42,
   {| invocations := 4;
      draws := 3;
      events :=
        [ Warn {| w_model := js "User";
                  w_operation := js "findMany";
                  w_errorId := js "PRISMA_CLIENT_INITIALIZATION_ERROR";
                  w_attempt := 1;
                  w_total := 4;
                  w_seconds := num 1;
                  w_detail :=
                    js "Can't reach database server at db:5432" ++
                    Enhanced.ELLIPSIS |};
          Timeout (num 1125);
          Warn {| w_model := js "User";
                  w_operation := js "findMany";
                  w_errorId := js "PRISMA_CLIENT_INITIALIZATION_ERROR";
                  w_attempt := 2;
                  w_total := 4;
                  w_seconds := num 2;
                  w_detail :=
                    js "Can't reach database server at db:5432" ++
                    Enhanced.ELLIPSIS |};
          Timeout (num 2125);
          Warn {| w_model := js "User";
                  w_operation := js "findMany";
                  w_errorId := js "PRISMA_CLIENT_INITIALIZATION_ERROR";
                  w_attempt := 3;
                  w_total := 4;
                  w_seconds := num 3;
                  w_detail :=
                    js "Can't reach database server at db:5432" ++
                    Enhanced.ELLIPSIS |};
          Timeout (num 3125) ] |}).
Proof. vm_compute. reflexivity. Qed.

Example constraint_violation_not_retried :
  Enhanced.allOperations (js "User") (js "create") violates_constraint initial =
  (ThrowNotRetryable unique_violation,
   {| invocations := 1; draws := 0; events := [] |}).
Proof. vm_compute. reflexivity. Qed.

Example classifier_samples :
  Enhanced.isRetryable (ThrownOther (VString (js "connect ECONNREFUSED 10.0.0.1:5432"))) = true /\
  Enhanced.isRetryable (ThrownOther (VString (js "getaddrinfo enotfound db"))) = true /\
  Enhanced.isRetryable (PrismaClientUnknownRequestError (Some (js "Server closed the connection"))) = true /\
  Enhanced.isRetryable (PrismaClientUnknownRequestError None) = false /\
  Enhanced.isRetryable (ThrownOther (VString (js "Unique constraint failed"))) = false /\
  Enhanced.isRetryable (ThrownOther (VNumber (num 42))) = false /\
  Enhanced.isRetryable ThrownNullish = false /\
  Enhanced.isRetryable unique_violation = false /\
  OneShot.isRetryable cold_start = false /\
  OneShot.isRetryable (PrismaClientInitializationError (Some (js "P1001")) None) = true.
Proof. repeat split; reflexivity. Qed.

Example largest_jitter :
  Enhanced.jitter_with (S754_finite false 9007199254740991 (-53)) (num 3000)
  = num 3249.
Proof. vm_compute. reflexivity. Qed.

(** ** Every run of the enhanced extension *)

Section EveryRun.

Import Enhanced.

Variable R : Type.
Variables model operation : jsstring.
Variable env : environment R.

Lemma delay_at_attempt (attempt : nat) :
  attempt < List.length RETRY_DELAYS_MS ->
  delay_at attempt = num (1000 * Z.of_nat (attempt + 1)) /\
  div (delay_at attempt) (num 1000) = num (Z.of_nat (attempt + 1)).
Proof.
  intros H. destruct attempt as [|[|[|attempt]]];
    [split; reflexivity | split; reflexivity | split; reflexivity |].
  cbn in H. lia.
Qed.

(** One run of the loop from the iteration for [attempt], described by the
    number [n] of retries it makes. *)
Lemma loop_run remaining :
  forall attempt lastError s,
    remaining + attempt = List.length RETRY_DELAYS_MS + 1 ->
    0 < remaining ->
    invocations s = attempt ->
    draws s = attempt ->
    exists n evs x s',
      for_loop model operation remaining attempt lastError env s = (x, s') /\
      n < remaining /\
      invocations s' = attempt + n + 1 /\
      draws s' = attempt + n /\
      events s' = events s ++ evs /\
      count_warnings evs = n /\
      count_timeouts evs = n /\
      retry_trace model operation env attempt evs /\
      (forall i, i < n -> retryable_failure (query env (attempt + i)) = true) /\
      settle x = settle_outcome (query env (attempt + n)) /\
      (retryable_failure (query env (attempt + n)) = true -> S n = remaining).
Proof.
  induction remaining as [|remaining IH]; intros attempt lastError s HI HP Hc Hd;
    [lia|].
  destruct (query env (invocations s)) as [r | err] eqn:Q.
  - exists 0, [], (ReturnResult r), (after_query s).
    rewrite (step_success model operation env _ _ _ _ Q), Nat.add_0_r, <- Hc, Q.
    cbn. rewrite app_nil_r.
    repeat split; try lia; try discriminate.
  - destruct (isRetryable err) eqn:Y.
    + destruct (Nat.le_gt_cases (List.length RETRY_DELAYS_MS) attempt) as [L | L].
      * exists 0, [], (ThrowExhausted err), (after_query s).
        rewrite (step_exhausted model operation env _ _ _ Q Y L), Nat.add_0_r, <- Hc, Q.
        cbn. rewrite app_nil_r.
        repeat split; try lia.
      * destruct (retryable_has_detail _ Y) as (detail & D).
        rewrite (step_retry model operation env _ _ _ Q Y L D).
        destruct (IH (attempt + 1) err
                     (after_retry model operation env attempt err detail s))
          as (n & evs & x & s' & E & Hn & I & Dr & Ev & W & T & Tr & F & St & Ex);
          [lia | lia | cbn; lia | cbn; lia |].
        destruct (delay_at_attempt L) as [Dl Sec].
        eexists (S n), (_ :: _ :: evs), x, s'.
        split; [exact E|]. split; [lia|]. split; [lia|]. split; [lia|].
        split; [rewrite Ev; cbn [after_retry events]; rewrite <- !app_assoc;
                reflexivity|].
        split; [change (S (count_warnings evs) = S n); lia|].
        split; [change (S (count_timeouts evs) = S n); lia|].
        split.
        { cbn [retry_trace w_errorId w_detail w_model w_operation w_attempt
                 w_total w_seconds].
          split; [exists err; rewrite <- Hc; auto|].
          rewrite Sec, Hd, Dl. repeat split; try assumption; reflexivity. }
        split.
        { intros [|i] Hi.
          - rewrite Nat.add_0_r, <- Hc, Q. exact Y.
          - replace (attempt + S i) with (attempt + 1 + i) by lia.
            apply F; lia. }
        replace (attempt + S n) with (attempt + 1 + n) by lia.
        split; [exact St|]. intros H. specialize (Ex H). lia.
    + exists 0, [], (ThrowNotRetryable err), (after_query s).
      rewrite (step_not_retryable model operation env _ _ _ _ Q Y), Nat.add_0_r, <- Hc, Q.
      cbn. rewrite app_nil_r, Y.
      repeat split; try lia; try discriminate.
Qed.

Lemma run_from_initial :
  exists n evs x s',
    allOperations model operation env initial = (x, s') /\
    n <= List.length RETRY_DELAYS_MS /\
    invocations s' = n + 1 /\
    draws s' = n /\
    events s' = evs /\
    count_warnings evs = n /\
    count_timeouts evs = n /\
    retry_trace model operation env 0 evs /\
    (forall i, i < n -> retryable_failure (query env i) = true) /\
    settle x = settle_outcome (query env n) /\
    (retryable_failure (query env n) = true -> n = List.length RETRY_DELAYS_MS).
Proof.
  unfold allOperations.
  destruct (@loop_run (List.length RETRY_DELAYS_MS + 1 - 0) 0 ThrownNullish initial)
    as (n & evs & x & s' & E & Hn & I & Dr & Ev & W & T & Tr & F & St & Ex);
    [reflexivity | cbn; lia | reflexivity | reflexivity |].
  exists n, evs, x, s'. cbn in Hn, Ex |- *.
  repeat split; try assumption; try lia.
  intros H. specialize (Ex H). lia.
Qed.

(** X1: whatever the operation does, what the extension hands to its caller
    is what the last call of the operation produced: that call's result, or
    the very error it threw. *)
Theorem result_is_that_of_last_call :
  let (x, s) := allOperations model operation env initial in
  settle x = settle_outcome (query env (invocations s - 1)).
Proof.
  destruct run_from_initial
    as (n & evs & x & s' & E & Hn & I & Dr & Ev & W & T & Tr & F & St & Ex).
  rewrite E, I. replace (n + 1 - 1) with n by lia. exact St.
Qed.

(** X2: every run calls the operation at least once and at most once more
    than there are delays, and it has warned, drawn a random number and
    waited exactly once before each call but the first. *)
Theorem calls_and_retries_balance :
  let (x, s) := allOperations model operation env initial in
  1 <= invocations s <= List.length RETRY_DELAYS_MS + 1 /\
  count_warnings (events s) = invocations s - 1 /\
  count_timeouts (events s) = invocations s - 1 /\
  draws s = invocations s - 1.
Proof.
  destruct run_from_initial
    as (n & evs & x & s' & E & Hn & I & Dr & Ev & W & T & Tr & F & St & Ex).
  rewrite E, I, Dr, Ev, W, T. lia.
Qed.

(** X3: the extension goes on exactly as long as it may: every call before
    the last one failed with a retryable error, and if the last call failed
    with a retryable error too, all four attempts were used. *)
Theorem stops_at_first_final_outcome :
  let (x, s) := allOperations model operation env initial in
  (forall i, i < invocations s - 1 ->
     retryable_failure (query env i) = true) /\
  (retryable_failure (query env (invocations s - 1)) = true ->
     invocations s = List.length RETRY_DELAYS_MS + 1).
Proof.
  destruct run_from_initial
    as (n & evs & x & s' & E & Hn & I & Dr & Ev & W & T & Tr & F & St & Ex).
  rewrite E, I. replace (n + 1 - 1) with n by lia.
  split; [exact F | intros H; rewrite (Ex H); reflexivity].
Qed.

(** X4: the events of every run are warning and timeout in turns; the
    warning before retry [i + 1] names the model and operation, the
    identifier and the truncated message of the error of call [i], the
    attempt [i + 1] of 4 and a delay of [i + 1] seconds, and the timeout
    that follows is [jitter] of [1000 * (i + 1)] ms. *)
Theorem events_follow_the_schedule :
  let (x, s) := allOperations model operation env initial in
  retry_trace model operation env 0 (events s).
Proof.
  destruct run_from_initial
    as (n & evs & x & s' & E & Hn & I & Dr & Ev & W & T & Tr & F & St & Ex).
  rewrite E, Ev. exact Tr.
Qed.

Lemma schedule_entry (i : nat) :
  i < List.length RETRY_DELAYS_MS ->
  In (1000 * Z.of_nat (i + 1))%Z RETRY_DELAYS_MS.
Proof.
  intros H. destruct i as [|[|[|i]]]; cbn; auto. cbn in H. lia.
Qed.

Lemma retry_trace_timeouts (bound : nat) :
  forall (evs : list event) (i : nat),
    List.length evs <= bound ->
    retry_trace model operation env i evs ->
    (forall j, unit_interval (Math_random env j)) ->
    exists ks,
      timeouts evs = map num ks /\
      within_windows i ks /\
      List.length ks = count_timeouts evs.
Proof.
  induction bound as [|bound IH]; intros evs i Hl Tr Hr.
  - destruct evs; [|cbn in Hl; lia]. exists []. repeat split.
  - destruct evs as [|[w | ms] [|[w' | ms'] rest]]; try contradiction.
    + exists []. repeat split.
    + cbn [retry_trace] in Tr.
      destruct Tr as (_ & _ & _ & Hi & _ & _ & _ & Hms & Tr).
      destruct (IH rest (i + 1)) as (ks & Eks & Wks & Lks);
        [cbn in Hl; lia | exact Tr | exact Hr |].
      destruct (jitter_with_window (1000 * Z.of_nat (i + 1)) (Math_random env i)
                  (schedule_entry Hi) (Hr i)) as (k & Ek & Bk & _).
      exists (k :: ks). cbn [timeouts map within_windows List.length].
      rewrite Hms, Ek, Eks, Lks. repeat split; try assumption; lia.
Qed.

(** X5: when [Math.random] only returns numbers of the unit interval, every
    wait of a run is a whole number of milliseconds inside the window of its
    delay, and all the waits of one run add up to less than 6750 ms. *)
Theorem total_wait_is_bounded :
  (forall j, unit_interval (Math_random env j)) ->
  let (x, s) := allOperations model operation env initial in
  exists ks : list Z,
    timeouts (events s) = map num ks /\
    List.length ks = invocations s - 1 /\
    within_windows 0 ks /\
    (fold_right Z.add 0 ks < 6750)%Z.
Proof.
  intros Hr.
  destruct run_from_initial
    as (n & evs & x & s' & E & Hn & I & Dr & Ev & W & T & Tr & F & St & Ex).
  rewrite E, Ev, I.
  destruct (@retry_trace_timeouts (List.length evs) evs 0 (le_n _) Tr Hr)
    as (ks & Eks & Wks & Lks).
  exists ks. split; [exact Eks|]. split; [lia|]. split; [exact Wks|].
  rewrite T in Lks. cbn in Hn.
  destruct ks as [|k0 [|k1 [|k2 [|k3 ks]]]]; cbn in Wks, Lks |- *; lia.
Qed.

End EveryRun.

Lemma total_wait_is_bounded_witness :
  (forall j, unit_interval (Math_random never_wakes j)) /\
  let (x, s) :=
    Enhanced.allOperations (js "User") (js "findMany") never_wakes initial in
  exists ks : list Z,
    timeouts (events s) = map num ks /\
    List.length ks = invocations s - 1 /\
    within_windows 0 ks /\
    (fold_right Z.add 0 ks < 6750)%Z.
Proof.
  assert (H : forall j, unit_interval (Math_random never_wakes j))
    by (intros j; repeat split; reflexivity).
  split; [exact H|].
  exact (@total_wait_is_bounded nat (js "User") (js "findMany") never_wakes H).
Defined.

(** ** Every run of the one-shot extension *)

Section OneShotRuns.

Variable R : Type.
Variable operation : jsstring.
Variable env : environment R.

(** X6: the one-shot extension calls the operation once or twice, never
    more, and hands its caller what the last call produced; a second
    failure is passed on without being classified. *)
Theorem one_shot_result_is_that_of_last_call :
  let (x, s) := OneShot.allOperations operation env OneShot.initial in
  1 <= OneShot.invocations s <= 2 /\
  x = settle_outcome (query env (OneShot.invocations s - 1)).
Proof.
  unfold OneShot.allOperations, OneShot.await_query. cbn.
  destruct (query env 0) as [r | err] eqn:Q0; cbn.
  - rewrite Q0. split; [lia | reflexivity].
  - destruct (OneShot.isRetryable err); cbn.
    + destruct (query env 1) as [r | err'] eqn:Q1; cbn; rewrite Q1;
        (split; [lia | reflexivity]).
    + rewrite Q0. split; [lia | reflexivity].
Qed.

(** X7: the one-shot extension makes its second call exactly when the first
    call failed with an error its classifier retries; before that call it
    warns once and waits 1000 ms, without jitter, and otherwise it emits
    nothing. *)
Theorem one_shot_retries_once_after_fixed_delay :
  let (x, s) := OneShot.allOperations operation env OneShot.initial in
  (OneShot.invocations s = 2 <->
   exists err, query env 0 = Rejected err /\ OneShot.isRetryable err = true) /\
  (OneShot.invocations s = 1 -> OneShot.events s = []) /\
  (OneShot.invocations s = 2 ->
   exists w, OneShot.events s = [OneShot.Warn w; OneShot.Timeout (num 1000)] /\
             OneShot.w_operation w = operation /\
             OneShot.w_seconds w = num 1).
Proof.
  unfold OneShot.allOperations, OneShot.await_query. cbn.
  destruct (query env 0) as [r | err] eqn:Q0; cbn.
  - split; [split; [discriminate | intros (e & [=] & _)]|].
    split; [reflexivity | discriminate].
  - destruct (OneShot.isRetryable err) eqn:Y; cbn.
    + assert (H : exists e, @Rejected R err = Rejected e /\
                            OneShot.isRetryable e = true) by eauto.
      destruct (query env 1) as [r | err']; cbn;
        (split; [split; [intros _; exact H | reflexivity]|]);
        (split; [discriminate | intros _; eexists; repeat split]).
    + split; [split; [discriminate|]|].
      * intros (e & [= <-] & Ye). congruence.
      * split; [reflexivity | discriminate].
Qed.

(** X8: in the warning of a retry, the one-shot extension shows the code of
    a known-request error, which is one of the retryable codes; for an
    initialization error it shows "no error code, assuming: P1001" whatever
    [errorCode] the error carries. *)
Theorem one_shot_warning_code :
  forall err : thrown,
    query env 0 = Rejected err ->
    OneShot.isRetryable err = true ->
    exists w ms,
      OneShot.events (snd (OneShot.allOperations operation env OneShot.initial))
        = [OneShot.Warn w; OneShot.Timeout ms] /\
      match err with
      | PrismaClientKnownRequestError code _ =>
          OneShot.w_code w = code /\ In code RETRYABLE_CODES
      | _ => OneShot.w_code w = js "no error code, assuming: P1001"
      end.
Proof.
  intros err Q0 Y.
  assert (HIn : match err with
                | PrismaClientKnownRequestError code _ => In code RETRYABLE_CODES
                | _ => True
                end).
  { destruct err; try exact I. apply includes_In. exact Y. }
  unfold OneShot.allOperations, OneShot.await_query.
  cbn [OneShot.initial OneShot.invocations]. rewrite Q0, Y.
  cbn [negb OneShot.emit OneShot.invocations OneShot.events app].
  destruct (query env 1) as [r | err']; cbn [snd OneShot.events];
    (eexists; eexists; split; [reflexivity|]);
    destruct err as [c m | c m | m | | v];
    cbn [OneShot.w_code OneShot.code_property or_else];
    try reflexivity; (split; [reflexivity | exact HIn]).
Qed.

Lemma one_shot_retryable_enhanced (e : thrown) :
  OneShot.isRetryable e = true -> Enhanced.isRetryable e = true.
Proof.
  destruct e as [c m | c m | m | | v]; cbn [OneShot.isRetryable];
    intros H; try discriminate H; [reflexivity | exact H].
Qed.

Lemma one_shot_result_calls :
  (exists err, query env 0 = Rejected err /\ OneShot.isRetryable err = true) ->
  OneShot.invocations (snd (OneShot.allOperations operation env OneShot.initial))
  = 2.
Proof.
  intros (err & Q0 & Y).
  unfold OneShot.allOperations, OneShot.await_query. cbn. rewrite Q0, Y. cbn.
  destruct (query env 1); reflexivity.
Qed.

(** X9: whenever the one-shot extension returns a result, the enhanced
    extension, run on the same operation, returns the same result after the
    same number of calls. *)
Theorem enhanced_recovers_where_one_shot_does :
  forall (model : jsstring) (r : R),
    fst (OneShot.allOperations operation env OneShot.initial) = Fulfilled r ->
    let (x, s) := Enhanced.allOperations model operation env initial in
    settle x = Fulfilled r /\
    invocations s =
    OneShot.invocations (snd (OneShot.allOperations operation env OneShot.initial)).
Proof.
  intros model r.
  assert (O : OneShot.allOperations operation env OneShot.initial =
              match query env 0 with
              | Resolved r0 =>
                  (Fulfilled r0,
                   {| OneShot.invocations := 1; OneShot.events := [] |})
              | Rejected err =>
                  if OneShot.isRetryable err
                  then (settle_outcome (query env 1),
                        snd (OneShot.allOperations operation env OneShot.initial))
                  else (RejectedWith err,
                        {| OneShot.invocations := 1; OneShot.events := [] |})
              end).
  { unfold OneShot.allOperations, OneShot.await_query. cbn.
    destruct (query env 0) as [r0 | err]; [reflexivity|].
    destruct (OneShot.isRetryable err); [|reflexivity]. cbn.
    destruct (query env 1); reflexivity. }
  pose proof (one_shot_result_calls) as C.
  rewrite O. destruct (query env 0) as [r0 | err] eqn:Q0.
  - cbn [fst snd OneShot.invocations]. intros [= ->].
    pose proof (@recovers_within_schedule R model operation env 0 r) as H.
    destruct (Enhanced.allOperations model operation env initial) as [x s].
    destruct H as (-> & I & _); [cbn; lia | intros i Hi; lia | exact Q0 |].
    split; [reflexivity | exact I].
  - destruct (OneShot.isRetryable err) eqn:Y; [|discriminate].
    cbn [fst snd]. destruct (query env 1) as [r1 | err'] eqn:Q1; [|discriminate].
    intros [= ->].
    pose proof (@recovers_within_schedule R model operation env 1 r) as H.
    destruct (Enhanced.allOperations model operation env initial) as [x s].
    destruct H as (-> & I & _); [cbn; lia | | exact Q1 |].
    + intros i Hi. assert (i = 0) as -> by lia.
      exists err. split; [exact Q0 | exact (one_shot_retryable_enhanced _ Y)].
    + split; [reflexivity|]. rewrite I. symmetry. apply C. eauto.
Qed.

End OneShotRuns.


Lemma one_shot_warning_code_witness :
  query closes_then_answers 0 = Rejected closed_connection /\
  OneShot.isRetryable closed_connection = true /\
  exists w ms,
    OneShot.events
      (snd (OneShot.allOperations (js "findMany") closes_then_answers
              OneShot.initial))
      = [OneShot.Warn w; OneShot.Timeout ms] /\
    OneShot.w_code w = js "no error code, assuming: P1001".
Proof.
  split; [reflexivity|]. split; [reflexivity|].
  exact (@one_shot_warning_code nat (js "findMany") closes_then_answers
           closed_connection eq_refl eq_refl).
Defined.

Lemma enhanced_recovers_where_one_shot_does_witness :
  fst (OneShot.allOperations (js "findMany") closes_then_answers OneShot.initial)
    = Fulfilled 42 /\
  let (x, s) :=
    Enhanced.allOperations (js "User") (js "findMany") closes_then_answers
      initial in
  settle x = Fulfilled 42 /\
  invocations s =
  OneShot.invocations
    (snd (OneShot.allOperations (js "findMany") closes_then_answers
            OneShot.initial)).
Proof.
  split; [reflexivity|].
  exact (@enhanced_recovers_where_one_shot_does nat (js "findMany")
           closes_then_answers (js "User") 42 eq_refl).
Defined.

(** ** Module evaluation *)

Lemma enhanced_module_cached (c : client) (e : option jsstring) (k : nat) :
  not_production
    {| globalThis_prisma := Some c; NODE_ENV := e; constructed := k |} = true ->
  enhanced_module
    {| globalThis_prisma := Some c; NODE_ENV := e; constructed := k |} =
  (c, {| globalThis_prisma := Some c; NODE_ENV := e; constructed := k |}).
Proof.
  intros H. unfold enhanced_module, save_outside_production.
  cbn [globalThis_prisma]. rewrite H. reflexivity.
Qed.

Lemma enhanced_reload_cached (n : nat) :
  forall (c : client) (e : option jsstring) (k : nat) (last : option client),
    not_production
      {| globalThis_prisma := Some c; NODE_ENV := e; constructed := k |} = true ->
    reload enhanced_module (S n) last
      {| globalThis_prisma := Some c; NODE_ENV := e; constructed := k |} =
    (Some c, {| globalThis_prisma := Some c; NODE_ENV := e; constructed := k |}).
Proof.
  induction n as [|n IH]; intros c e k last H.
  - cbn [reload]. rewrite (enhanced_module_cached _ _ _ H). reflexivity.
  - change (reload enhanced_module (S (S n)) last ?g)
      with (let (prisma, g') := enhanced_module g in
            reload enhanced_module (S n) (Some prisma) g').
    rewrite (enhanced_module_cached _ _ _ H). apply IH. exact H.
Qed.

(** X10: outside production, however often the enhanced module is
    evaluated in a realm that starts without a cached client, it exports
    one and the same client: the first [PrismaClient] constructed, extended
    once; no second client is constructed and the cache holds that
    client. *)
Theorem enhanced_module_keeps_one_client :
  forall (g : realm) (n : nat),
    not_production g = true ->
    globalThis_prisma g = None ->
    let prisma := Extends (NewPrismaClient (constructed g)) ENHANCED in
    reload enhanced_module (S n) None g =
    (Some prisma,
     {| globalThis_prisma := Some prisma;
        NODE_ENV := NODE_ENV g;
        constructed := S (constructed g) |}).
Proof.
  intros [c e k] n H N. cbn [globalThis_prisma NODE_ENV constructed] in *.
  subst c. cbn [reload]. unfold enhanced_module at 1.
  cbn [globalThis_prisma new_PrismaClient constructed NODE_ENV].
  unfold save_outside_production.
  assert (H' : not_production
                 {| globalThis_prisma := None; NODE_ENV := e;
                    constructed := S k |} = true) by exact H.
  rewrite H'. cbn [NODE_ENV constructed].
  destruct n as [|n]; [reflexivity|].
  apply enhanced_reload_cached. exact H.
Qed.


Lemma one_shot_module_cached (c : client) (e : option jsstring) (k : nat) :
  not_production
    {| globalThis_prisma := Some c; NODE_ENV := e; constructed := k |} = true ->
  one_shot_module
    {| globalThis_prisma := Some c; NODE_ENV := e; constructed := k |} =
  (Extends c ONE_SHOT,
   {| globalThis_prisma := Some (Extends c ONE_SHOT);
      NODE_ENV := e; constructed := k |}).
Proof.
  intros H. unfold one_shot_module, save_outside_production.
  cbn [globalThis_prisma]. rewrite H. reflexivity.
Qed.

Lemma one_shot_reload_cached (n : nat) :
  forall (c : client) (e : option jsstring) (k : nat) (last : option client),
    not_production
      {| globalThis_prisma := Some c; NODE_ENV := e; constructed := k |} = true ->
    reload one_shot_module (S n) last
      {| globalThis_prisma := Some c; NODE_ENV := e; constructed := k |} =
    (Some (extended (S n) ONE_SHOT c),
     {| globalThis_prisma := Some (extended (S n) ONE_SHOT c);
        NODE_ENV := e; constructed := k |}).
Proof.
  induction n as [|n IH]; intros c e k last H.
  - cbn [reload]. rewrite (one_shot_module_cached _ _ _ H). reflexivity.
  - change (reload one_shot_module (S (S n)) last ?g)
      with (let (prisma, g') := one_shot_module g in
            reload one_shot_module (S n) (Some prisma) g').
    rewrite (one_shot_module_cached _ _ _ H).
    rewrite (IH (Extends c ONE_SHOT) e k _ H).
    assert (E : forall m b, extended m ONE_SHOT (Extends b ONE_SHOT) =
                            Extends (extended m ONE_SHOT b) ONE_SHOT).
    { induction m as [|m IHm]; intros b; cbn [extended];
        [reflexivity | rewrite IHm; reflexivity]. }
    rewrite E. reflexivity.
Qed.

Lemma layers_extended (n : nat) (name : jsstring) (c : client) :
  layers name (extended n name c) = n + layers name c.
Proof.
  induction n as [|n IH]; cbn [extended layers]; [reflexivity|].
  rewrite IH. rewrite (proj2 (jsstring_eqb_eq name name) eq_refl). reflexivity.
Qed.

(** X11: outside production, every evaluation of the one-shot module
    extends the client the previous evaluation cached: after [n + 1]
    evaluations in a realm that starts without a cached client, the exported
    client is the first [PrismaClient] constructed with the retry extension
    applied [n + 1] times. *)
Theorem one_shot_module_stacks_extensions :
  forall (g : realm) (n : nat),
    not_production g = true ->
    globalThis_prisma g = None ->
    let prisma := extended (S n) ONE_SHOT (NewPrismaClient (constructed g)) in
    reload one_shot_module (S n) None g =
    (Some prisma,
     {| globalThis_prisma := Some prisma;
        NODE_ENV := NODE_ENV g;
        constructed := S (constructed g) |}) /\
    layers ONE_SHOT prisma = S n.
Proof.
  intros [c e k] n H N. cbn [globalThis_prisma NODE_ENV constructed] in *.
  subst c. split; [|rewrite layers_extended; cbn [layers]; lia].
  cbn [reload]. unfold one_shot_module at 1.
  cbn [globalThis_prisma new_PrismaClient constructed NODE_ENV].
  unfold save_outside_production.
  assert (H' : not_production
                 {| globalThis_prisma := None; NODE_ENV := e;
                    constructed := S k |} = true) by exact H.
  rewrite H'. cbn [NODE_ENV constructed].
  destruct n as [|n]; [reflexivity|].
  rewrite (one_shot_reload_cached n (Extends (NewPrismaClient k) ONE_SHOT) e (S k) _ H).
  assert (E : forall m b, extended m ONE_SHOT (Extends b ONE_SHOT) =
                          Extends (extended m ONE_SHOT b) ONE_SHOT).
  { induction m as [|m IHm]; intros b; cbn [extended];
      [reflexivity | rewrite IHm; reflexivity]. }
  rewrite E. reflexivity.
Qed.

Lemma production_reload (name : jsstring) (module : realm -> client * realm) :
  (forall e k,
      not_production
        {| globalThis_prisma := None; NODE_ENV := e; constructed := k |} = false ->
      module {| globalThis_prisma := None; NODE_ENV := e; constructed := k |} =
      (Extends (NewPrismaClient k) name,
       {| globalThis_prisma := None; NODE_ENV := e; constructed := S k |})) ->
  forall n e k last,
    not_production
      {| globalThis_prisma := None; NODE_ENV := e; constructed := k |} = false ->
    reload module (S n) last
      {| globalThis_prisma := None; NODE_ENV := e; constructed := k |} =
    (Some (Extends (NewPrismaClient (k + n)) name),
     {| globalThis_prisma := None; NODE_ENV := e; constructed := k + S n |}).
Proof.
  intros Hm. induction n as [|n IH]; intros e k last H.
  - cbn [reload]. rewrite (Hm e k H), Nat.add_0_r, Nat.add_1_r. reflexivity.
  - change (reload module (S (S n)) last ?g)
      with (let (prisma, g') := module g in reload module (S n) (Some prisma) g').
    rewrite (Hm e k H). rewrite (IH e (S k) _ H).
    replace (S k + n) with (k + S n) by lia.
    replace (S k + S n) with (k + S (S n)) by lia.
    reflexivity.
Qed.

(** X12: in production neither module caches anything: each evaluation in a
    realm without a cached client constructs a new [PrismaClient], exports
    it extended once, and leaves [globalThis] as it was. *)
Theorem production_never_caches :
  forall (g : realm) (n : nat),
    not_production g = false ->
    globalThis_prisma g = None ->
    reload enhanced_module (S n) None g =
    (Some (Extends (NewPrismaClient (constructed g + n)) ENHANCED),
     {| globalThis_prisma := None;
        NODE_ENV := NODE_ENV g;
        constructed := constructed g + S n |}) /\
    reload one_shot_module (S n) None g =
    (Some (Extends (NewPrismaClient (constructed g + n)) ONE_SHOT),
     {| globalThis_prisma := None;
        NODE_ENV := NODE_ENV g;
        constructed := constructed g + S n |}).
Proof.
  intros [c e k] n H N. cbn [globalThis_prisma NODE_ENV constructed] in *.
  subst c. split; apply production_reload; try exact H; intros e' k' H'.
  - unfold enhanced_module, save_outside_production.
    cbn [globalThis_prisma new_PrismaClient constructed NODE_ENV].
    assert (H'' : not_production
                    {| globalThis_prisma := None; NODE_ENV := e';
                       constructed := S k' |} = false) by exact H'.
    rewrite H''. reflexivity.
  - unfold one_shot_module, save_outside_production.
    cbn [globalThis_prisma new_PrismaClient constructed NODE_ENV].
    assert (H'' : not_production
                    {| globalThis_prisma := None; NODE_ENV := e';
                       constructed := S k' |} = false) by exact H'.
    rewrite H''. reflexivity.
Qed.

(** X13: outside production, once the one-shot module has been evaluated,
    evaluating the enhanced module in the same realm exports the client the
    one-shot module cached and changes nothing: that client never gets the
    enhanced extension. *)
Theorem enhanced_module_keeps_one_shot_client :
  forall g : realm,
    not_production g = true ->
    globalThis_prisma g = None ->
    let (prisma, g1) := one_shot_module g in
    enhanced_module g1 = (prisma, g1) /\
    layers ENHANCED prisma = 0 /\
    layers ONE_SHOT prisma = 1.
Proof.
  intros [c e k] H N. cbn [globalThis_prisma NODE_ENV constructed] in *.
  subst c. unfold one_shot_module, save_outside_production.
  cbn [globalThis_prisma new_PrismaClient constructed NODE_ENV].
  assert (H' : not_production
                 {| globalThis_prisma := None; NODE_ENV := e;
                    constructed := S k |} = true) by exact H.
  rewrite H'. cbn [NODE_ENV constructed].
  split; [apply enhanced_module_cached; exact H | split; reflexivity].
Qed.

Lemma enhanced_module_keeps_one_client_witness :
  not_production development = true /\
  globalThis_prisma development = None /\
  reload enhanced_module 3 None development =
  (Some (Extends (NewPrismaClient 0) ENHANCED),
   {| globalThis_prisma := Some (Extends (NewPrismaClient 0) ENHANCED);
      NODE_ENV := Some (js "development");
      constructed := 1 |}).
Proof.
  split; [reflexivity|]. split; [reflexivity|].
  exact (enhanced_module_keeps_one_client development 2 eq_refl eq_refl).
Defined.

Lemma one_shot_module_stacks_extensions_witness :
  not_production development = true /\
  globalThis_prisma development = None /\
  reload one_shot_module 3 None development =
  (Some (extended 3 ONE_SHOT (NewPrismaClient 0)),
   {| globalThis_prisma := Some (extended 3 ONE_SHOT (NewPrismaClient 0));
      NODE_ENV := Some (js "development");
      constructed := 1 |}) /\
  layers ONE_SHOT (extended 3 ONE_SHOT (NewPrismaClient 0)) = 3.
Proof.
  split; [reflexivity|]. split; [reflexivity|].
  exact (one_shot_module_stacks_extensions development 2 eq_refl eq_refl).
Defined.

Lemma production_never_caches_witness :
  not_production production = false /\
  globalThis_prisma production = None /\
  reload enhanced_module 2 None production =
  (Some (Extends (NewPrismaClient 1) ENHANCED),
   {| globalThis_prisma := None;
      NODE_ENV := Some (js "production");
      constructed := 2 |}) /\
  reload one_shot_module 2 None production =
  (Some (Extends (NewPrismaClient 1) ONE_SHOT),
   {| globalThis_prisma := None;
      NODE_ENV := Some (js "production");
      constructed := 2 |}).
Proof.
  split; [reflexivity|]. split; [reflexivity|].
  exact (production_never_caches production 1 eq_refl eq_refl).
Defined.

Lemma enhanced_module_keeps_one_shot_client_witness :
  not_production development = true /\
  globalThis_prisma development = None /\
  let (prisma, g1) := one_shot_module development in
  enhanced_module g1 = (prisma, g1) /\
  layers ENHANCED prisma = 0 /\
  layers ONE_SHOT prisma = 1.
Proof.
  split; [reflexivity|]. split; [reflexivity|].
  exact (enhanced_module_keeps_one_shot_client development eq_refl eq_refl).
Defined.

(** ** More on the classifiers *)

Lemma match_chars_canonical (pat : jsstring) :
  forall s s' : jsstring,
    map canonicalize s = map canonicalize s' ->
    match_chars pat s = match_chars pat s'.
Proof.
  induction pat as [|p pat IH]; intros s s' E; [reflexivity|].
  destruct s as [|c s], s' as [|c' s']; try discriminate E; [reflexivity|].
  cbn [map] in E. injection E as Ec Es.
  cbn [match_chars]. rewrite Ec, (IH s s' Es). reflexivity.
Qed.

Lemma test_canonical (r : regex) :
  forall s s' : jsstring,
    map canonicalize s = map canonicalize s' ->
    test r s = test r s'.
Proof.
  assert (A : forall s s', map canonicalize s = map canonicalize s' ->
                           match_at r s = match_at r s').
  { induction r as [cs | a IHa b IHb]; intros s s' E; cbn [match_at].
    - apply match_chars_canonical; exact E.
    - rewrite (IHa s s' E), (IHb s s' E). reflexivity. }
  induction s as [|c s IH]; intros s' E; destruct s' as [|c' s'];
    try discriminate E; [reflexivity|].
  cbn [test]. rewrite (A _ _ E). cbn [map] in E. injection E as _ Es.
  rewrite (IH s' Es). reflexivity.
Qed.

Lemma same_ignoring_case_canonical (s s' : jsstring) :
  Forall2 same_ignoring_case s s' ->
  map canonicalize s = map canonicalize s'.
Proof.
  induction 1 as [|c c' s s' Hc _ IH]; [reflexivity|].
  cbn [map]. rewrite IH. f_equal. apply canonicalize_same; exact Hc.
Qed.

(** X14: the enhanced classifier does not look at the case of ASCII
    letters: two messages that differ only in letter case are classified
    alike, for an unknown-request error as for a value of no Prisma
    class. *)
Theorem classification_ignores_letter_case :
  forall s s' : jsstring,
    Forall2 same_ignoring_case s s' ->
    Enhanced.isRetryable (ThrownOther (VString s)) =
    Enhanced.isRetryable (ThrownOther (VString s')) /\
    Enhanced.isRetryable (PrismaClientUnknownRequestError (Some s)) =
    Enhanced.isRetryable (PrismaClientUnknownRequestError (Some s')).
Proof.
  intros s s' H. apply same_ignoring_case_canonical in H.
  assert (E : some (fun pattern => test pattern s)
                Enhanced.RETRYABLE_MESSAGE_PATTERNS =
              some (fun pattern => test pattern s')
                Enhanced.RETRYABLE_MESSAGE_PATTERNS).
  { unfold some. induction Enhanced.RETRYABLE_MESSAGE_PATTERNS as [|p ps IH];
      [reflexivity|].
    cbn [existsb]. rewrite (test_canonical p s s' H), IH. reflexivity. }
  split; exact E.
Qed.

Lemma classification_ignores_letter_case_witness :
  Forall2 same_ignoring_case (js "ETIMEDOUT") (js "etimedout") /\
  Enhanced.isRetryable (ThrownOther (VString (js "ETIMEDOUT"))) =
  Enhanced.isRetryable (ThrownOther (VString (js "etimedout"))) /\
  Enhanced.isRetryable (PrismaClientUnknownRequestError (Some (js "ETIMEDOUT"))) =
  Enhanced.isRetryable (PrismaClientUnknownRequestError (Some (js "etimedout"))).
Proof.
  assert (H : Forall2 same_ignoring_case (js "ETIMEDOUT") (js "etimedout")).
  { cbv - [same_ignoring_case].
    repeat (apply Forall2_cons;
            [right; left; split; [lia | reflexivity]|]).
    apply Forall2_nil. }
  split; [exact H|].
  exact (classification_ignores_letter_case H).
Defined.

Lemma occurs_in_context (t pre msg post : jsstring) :
  occurs_ignoring_case t msg ->
  occurs_ignoring_case t (pre ++ msg ++ post).
Proof.
  intros (a & mid & b & -> & F).
  exists (pre ++ a), mid, (b ++ post). split; [|exact F].
  rewrite <- !app_assoc. reflexivity.
Qed.

(** X15: text around a retryable message does not change the verdict: when
    an untagged error with message [msg] is retryable, so is one whose
    message contains [msg]. *)
Theorem retryable_message_in_context :
  forall pre msg post : jsstring,
    Enhanced.isRetryable (ThrownOther (VString msg)) = true ->
    Enhanced.isRetryable (ThrownOther (VString (pre ++ msg ++ post))) = true /\
    Enhanced.isRetryable
      (PrismaClientUnknownRequestError (Some (pre ++ msg ++ post))) = true.
Proof.
  intros pre msg post H.
  assert (E : some (fun pattern => test pattern (pre ++ msg ++ post))
                Enhanced.RETRYABLE_MESSAGE_PATTERNS = true).
  { apply some_patterns. cbn [Enhanced.isRetryable optional_message coalesce] in H.
    apply some_patterns in H as (p & Hin & t & Ht & Ho).
    exists p. split; [exact Hin|]. exists t. split; [exact Ht|].
    apply occurs_in_context; exact Ho. }
  split; exact E.
Qed.

Lemma retryable_message_in_context_witness :
  Enhanced.isRetryable (ThrownOther (VString (js "ECONNRESET"))) = true /\
  Enhanced.isRetryable
    (ThrownOther (VString (js "read " ++ js "ECONNRESET" ++ js " by peer"))) = true /\
  Enhanced.isRetryable
    (PrismaClientUnknownRequestError
       (Some (js "read " ++ js "ECONNRESET" ++ js " by peer"))) = true.
Proof.
  split; [reflexivity|].
  exact (retryable_message_in_context (js "read ") (js "ECONNRESET")
           (js " by peer") eq_refl).
Defined.


Lemma match_chars_prefix_of (p q : jsstring) :
  forall s : jsstring,
    match_chars (p ++ q) s = true -> match_chars p s = true.
Proof.
  induction p as [|c p IH]; intros s H; [reflexivity|].
  destruct s as [|c' s]; [discriminate H|].
  cbn [app match_chars] in H |- *.
  apply andb_true_iff in H as [Hc H]. rewrite Hc, (IH s H). reflexivity.
Qed.

Lemma match_chars_same_canonical_pattern (p p' : jsstring) :
  map canonicalize p = map canonicalize p' ->
  forall s : jsstring, match_chars p s = match_chars p' s.
Proof.
  revert p'. induction p as [|c p IH]; intros [|c' p'] E s;
    try discriminate E; [reflexivity|].
  cbn [map] in E. injection E as Ec Ep.
  destruct s as [|d s]; [reflexivity|].
  cbn [match_chars]. rewrite Ec, (IH p' Ep s). reflexivity.
Qed.

Lemma terminated_unexpectedly_is_terminated (s : jsstring) :
  test (Literal (js "connection terminated unexpectedly")) s = true ->
  test (Literal (js "Connection terminated")) s = true.
Proof.
  induction s as [|c s IH]; cbn [test match_at]; [discriminate|].
  rewrite !orb_true_iff. intros [H | H]; [left | right; exact (IH H)].
  change (js "connection terminated unexpectedly")
    with (js "connection terminated" ++ js " unexpectedly") in H.
  apply match_chars_prefix_of in H.
  rewrite (@match_chars_same_canonical_pattern
             (js "Connection terminated") (js "connection terminated") eq_refl).
  exact H.
Qed.

(** X17: the last entry of [RETRYABLE_MESSAGE_PATTERNS] never decides: every
    message that matches [/connection terminated unexpectedly/i] matches
    [/Connection terminated/i], so the patterns without the last one accept
    exactly the same messages. *)
Theorem last_pattern_is_subsumed :
  forall msg : jsstring,
    (test (Literal (js "connection terminated unexpectedly")) msg = true ->
     test (Literal (js "Connection terminated")) msg = true) /\
    some (fun pattern => test pattern msg) Enhanced.RETRYABLE_MESSAGE_PATTERNS =
    some (fun pattern => test pattern msg)
         (removelast Enhanced.RETRYABLE_MESSAGE_PATTERNS).
Proof.
  intros msg. split; [apply terminated_unexpectedly_is_terminated|].
  unfold some, Enhanced.RETRYABLE_MESSAGE_PATTERNS. cbn [removelast existsb].
  pose proof (terminated_unexpectedly_is_terminated msg) as H.
  destruct (test (Literal (js "connection terminated unexpectedly")) msg);
    [rewrite (H eq_refl)|]; rewrite ?orb_false_r, ?orb_true_r; reflexivity.
Qed.

(** X18: the message shown in a warning is at most 100 code units of the
    error's message followed by one ellipsis character: never longer than
    101 code units, and the whole message when that has at most 100 code
    units. *)
Theorem warning_message_is_truncated :
  forall (err : thrown) (detail : jsstring),
    Enhanced.truncated_message err = Some detail ->
    List.length detail <= 101 /\
    exists body,
      detail = body ++ Enhanced.ELLIPSIS /\
      forall msg, message_text err = Some msg ->
                  body = firstn 100 msg /\
                  (List.length msg <= 100 -> body = msg).
Proof.
  assert (T : forall v detail,
             match v with
             | VUndefined | VNull => Some (js "undefined" ++ Enhanced.ELLIPSIS)
             | VString s => Some (slice0 100 s ++ Enhanced.ELLIPSIS)
             | _ => None
             end = Some detail ->
             List.length detail <= 101 /\
             exists body,
               detail = body ++ Enhanced.ELLIPSIS /\
               forall msg, match v with VString s => Some s | _ => None end
                           = Some msg ->
                           body = firstn 100 msg /\
                           (List.length msg <= 100 -> body = msg)).
  { intros v detail Hv.
    destruct v as [| | b | x | s |]; try discriminate Hv;
      apply (f_equal (fun o => or_else o [])) in Hv; cbn [or_else] in Hv;
      subst detail.
    - split; [cbn; lia|].
      exists (js "undefined"). split; [reflexivity | discriminate].
    - split; [cbn; lia|].
      exists (js "undefined"). split; [reflexivity | discriminate].
    - split.
      + rewrite length_app. unfold slice0.
        pose proof (firstn_le_length 100 s) as L.
        change (List.length Enhanced.ELLIPSIS) with 1. lia.
      + exists (slice0 100 s). split; [reflexivity|].
        intros msg Hm. assert (msg = s) as -> by congruence.
        split; [reflexivity|].
        intros L. apply firstn_all2; exact L. }
  intros err detail H. unfold message_text.
  destruct err as [ec m | c m | m | | v]; cbn [Enhanced.truncated_message] in H;
    try discriminate H; exact (T _ _ H).
Qed.

Lemma warning_message_is_truncated_witness :
  Enhanced.truncated_message cold_start
    = Some (js "Can't reach database server at db:5432" ++ Enhanced.ELLIPSIS) /\
  List.length (js "Can't reach database server at db:5432" ++ Enhanced.ELLIPSIS)
    <= 101.
Proof.
  split; [reflexivity|].
  exact (proj1 (@warning_message_is_truncated cold_start _ eq_refl)).
Defined.

Lemma stops_at_first_final_outcome_witness :
  let (x, s) :=
    Enhanced.allOperations (js "User") (js "findMany") (wakes_after 2) initial in
  (forall i, i < invocations s - 1 ->
     retryable_failure (query (wakes_after 2) i) = true) /\
  (retryable_failure (query (wakes_after 2) (invocations s - 1)) = true ->
     invocations s = List.length Enhanced.RETRY_DELAYS_MS + 1).
Proof.
  exact (@stops_at_first_final_outcome nat (js "User") (js "findMany")
           (wakes_after 2)).
Defined.

Lemma one_shot_retries_once_after_fixed_delay_witness :
  let (x, s) :=
    OneShot.allOperations (js "findMany") closes_then_answers OneShot.initial in
  (OneShot.invocations s = 2 <->
   exists err, query closes_then_answers 0 = Rejected err /\
               OneShot.isRetryable err = true) /\
  (OneShot.invocations s = 1 -> OneShot.events s = []) /\
  (OneShot.invocations s = 2 ->
   exists w, OneShot.events s = [OneShot.Warn w; OneShot.Timeout (num 1000)] /\
             OneShot.w_operation w = js "findMany" /\
             OneShot.w_seconds w = num 1).
Proof.
  exact (@one_shot_retries_once_after_fixed_delay nat (js "findMany")
           closes_then_answers).
Defined.

Lemma last_pattern_is_subsumed_witness :
  test (Literal (js "connection terminated unexpectedly"))
       (js "Error: Connection terminated unexpectedly") = true /\
  test (Literal (js "Connection terminated"))
       (js "Error: Connection terminated unexpectedly") = true.
Proof.
  split; [reflexivity|].
  apply (proj1 (last_pattern_is_subsumed
                  (js "Error: Connection terminated unexpectedly"))).
  reflexivity.
Defined.
